(** * autodp: privacy-representation converters and transformers

    A shallow embedding of [autodp/converter.py], [autodp/transformer_zoo.py]
    and the part of [autodp/mechanism_zoo.py] they are used with.

    Numbers.  Python and numpy floats are modelled as extended reals
    ([Fin x], the two infinities and NaN) over the real numbers of the
    Standard Library: sums, products and quotients are exact (rounding is
    not modelled, and statements about values are made where no sum or
    product overflows), [np.exp] overflows to infinity and [math.cosh] and
    [math.sinh] raise OverflowError where they do on doubles.  The one
    computation for which rounding itself is the question, the pure-DP
    epsilon of a composition, is also given on IEEE doubles (section
    Doubles).  Exceptions are explicit ([res]), [print] is a log of lines,
    and the [params] dictionaries live in a store of shared objects, so that
    two mechanisms can hold the same dictionary. *)

From Stdlib Require Import Reals Lra Lia List FunctionalExtensionality.
From Stdlib Require Import Floats.
From stdpp Require Import base option list gmap strings pretty.

(** ** Numbers *)

Inductive num : Type :=
| Fin (x : R)
| PInf
| NInf
| NaN.

Definition Rltb (x y : R) : bool := if Rlt_dec x y then true else false.
Definition Rleb (x y : R) : bool := if Rle_dec x y then true else false.
Definition Reqb (x y : R) : bool := if Req_dec_T x y then true else false.

Module Num.

Definition zero : num := Fin 0%R.
Definition one : num := Fin 1%R.
Definition two : num := Fin 2%R.

Definition neg (a : num) : num :=
  match a with
  | Fin x => Fin (- x)%R
  | PInf => NInf
  | NInf => PInf
  | NaN => NaN
  end.

Definition add (a b : num) : num :=
  match a, b with
  | NaN, _ | _, NaN => NaN
  | Fin x, Fin y => Fin (x + y)%R
  | PInf, NInf | NInf, PInf => NaN
  | PInf, _ | _, PInf => PInf
  | NInf, _ | _, NInf => NInf
  end.

Definition sub (a b : num) : num := add a (neg b).

(** [x * inf] for a finite [x]: the sign of [x] decides, [0 * inf] is NaN. *)
Definition scale_inf (x : R) (i : num) : num :=
  if Rltb 0 x then i else if Rltb x 0 then neg i else NaN.

Definition mul (a b : num) : num :=
  match a, b with
  | NaN, _ | _, NaN => NaN
  | Fin x, Fin y => Fin (x * y)%R
  | Fin x, i | i, Fin x => scale_inf x i
  | PInf, PInf | NInf, NInf => PInf
  | PInf, NInf | NInf, PInf => NInf
  end.

(** Comparisons: every comparison with NaN is false. *)
Definition ltb (a b : num) : bool :=
  match a, b with
  | NaN, _ | _, NaN => false
  | Fin x, Fin y => Rltb x y
  | NInf, NInf | PInf, _ => false
  | NInf, _ | _, PInf => true
  | _, NInf => false
  end.

Definition eqb (a b : num) : bool :=
  match a, b with
  | Fin x, Fin y => Reqb x y
  | PInf, PInf | NInf, NInf => true
  | _, _ => false
  end.

Definition leb (a b : num) : bool := ltb a b || eqb a b.
Definition gtb (a b : num) : bool := ltb b a.
Definition geb (a b : num) : bool := leb b a.

Definition abs (a : num) : num :=
  match a with
  | Fin x => Fin (Rabs x)
  | PInf | NInf => PInf
  | NaN => NaN
  end.

Definition is_nan (a : num) : bool :=
  match a with NaN => true | _ => false end.

End Num.

Declare Scope num_scope.
Delimit Scope num_scope with num.
Bind Scope num_scope with num.
Infix "+" := Num.add : num_scope.
Infix "-" := Num.sub : num_scope.
Infix "*" := Num.mul : num_scope.
Notation "- a" := (Num.neg a) : num_scope.
Infix "<?" := Num.ltb : num_scope.
Infix "<=?" := Num.leb : num_scope.
Infix ">?" := Num.gtb : num_scope.
Infix ">=?" := Num.geb : num_scope.
Infix "=?" := Num.eqb : num_scope.
Notation "0" := Num.zero : num_scope.
Notation "1" := Num.one : num_scope.
Notation "2" := Num.two : num_scope.

(** ** Exceptions, printing, and the two monads *)

Inductive exn : Type :=
| AssertionError
| ZeroDivisionError
| ValueError
| AttributeError
| TypeError
| OverflowError
| OutOfFuel.
(** [OutOfFuel] is not an exception of the program: it marks a loop of the
    model that ran out of its bound (shown not to happen, see
    [amplify_loop_ends]). *)

Inductive res (A : Type) : Type :=
| Ok (a : A)
| Raise (e : exn).
Arguments Ok {A} a.
Arguments Raise {A} e.

Definition rbind {A B} (m : res A) (k : A -> res B) : res B :=
  match m with
  | Ok a => k a
  | Raise e => Raise e
  end.

(** [M A]: a computation that prints lines and then returns or raises.
    This is what calling an evaluator (a Python closure) does. *)
Definition M (A : Type) : Type := (list string * res A)%type.

Definition mret {A} (a : A) : M A := ([], Ok a).
Definition mraise {A} (e : exn) : M A := ([], Raise e).
Definition mprint (s : string) : M unit := ([s], Ok tt).
Definition mlift {A} (r : res A) : M A := ([], r).
Definition mbind {A B} (m : M A) (k : A -> M B) : M B :=
  match m with
  | (out, Ok a) => let '(out', r) := k a in ((out ++ out')%list, r)
  | (out, Raise e) => (out, Raise e)
  end.
Definition massert (b : bool) : M unit :=
  if b then mret tt else mraise AssertionError.

Declare Scope M_scope.
Delimit Scope M_scope with M.
Notation "'let*' x := m 'in' k" := (mbind m (fun x => k))
  (at level 10, x pattern, m at level 100, k at level 200) : M_scope.
Notation "'run' m 'then' k" := (mbind m (fun _ => k))
  (at level 10, m at level 100, k at level 200) : M_scope.

Definition printed {A} (m : M A) : list string := fst m.
Definition outcome {A} (m : M A) : res A := snd m.

(** An evaluator is a closure from a point (order, delta, fpr) to a value. *)
Definition evaluator : Type := num -> M num.

(** ** Python and numpy primitives on numbers *)

Module Py.

(** [a / b] on Python floats: a zero divisor raises. *)
Definition div (a b : num) : res num :=
  match a, b with
  | NaN, Fin y => if Reqb y 0 then Raise ZeroDivisionError else Ok NaN
  | NaN, _ | _, NaN => Ok NaN
  | Fin x, Fin y =>
      if Reqb y 0 then Raise ZeroDivisionError else Ok (Fin (x / y)%R)
  | Fin _, _ => Ok (Fin 0%R)
  | i, Fin y =>
      if Reqb y 0 then Raise ZeroDivisionError else Ok (Num.scale_inf y i)
  | _, _ => Ok NaN
  end.

(** The builtin [min(a, b)]: the first argument unless the second is
    smaller. *)
Definition min (a b : num) : num := if (b <? a)%num then b else a.

(** The builtin [max] of a list: raises on the empty list. *)
Definition max (l : list num) : res num :=
  match l with
  | [] => Raise ValueError
  | a :: l' => Ok (fold_left (fun m x => if (x >? m)%num then x else m) l' a)
  end.

(** The builtin [sum]: starts from the integer 0 and adds left to right.
    The additions are exact here; [float_sum] below is the same fold on
    doubles. *)
Definition sum (l : list num) : num := fold_left Num.add l 0%num.

(** [math.cosh] and [math.sinh] raise OverflowError when the result does
    not fit a double: from |x| above 710.4758600739439, the logarithm of
    twice the largest double. *)
Definition cosh_max : R := (7104758600739439 / 10000000000000)%R.

Definition math_cosh (a : num) : res num :=
  match a with
  | Fin x => if Rltb cosh_max (Rabs x) then Raise OverflowError
             else Ok (Fin (cosh x))
  | PInf | NInf => Ok PInf
  | NaN => Ok NaN
  end.

Definition math_sinh (a : num) : res num :=
  match a with
  | Fin x => if Rltb cosh_max (Rabs x) then Raise OverflowError
             else Ok (Fin (sinh x))
  | PInf => Ok PInf
  | NInf => Ok NInf
  | NaN => Ok NaN
  end.

End Py.

Module Np.

Definition inf : num := PInf.

Definition isinf (a : num) : bool :=
  match a with PInf | NInf => true | _ => false end.

Definition log (a : num) : num :=
  match a with
  | Fin x => if Rltb 0 x then Fin (ln x) else if Reqb x 0 then NInf else NaN
  | PInf => PInf
  | NInf | NaN => NaN
  end.

(** [np.exp] overflows to inf above 709.782712893384, the largest double
    whose exponential fits a double. *)
Definition exp_max : R := (709782712893384 / 1000000000000)%R.

Definition exp (a : num) : num :=
  match a with
  | Fin x => if Rltb exp_max x then PInf else Fin (Rtrigo_def.exp x)
  | PInf => PInf
  | NInf => Fin 0%R
  | NaN => NaN
  end.

(** [np.maximum] and [np.minimum] propagate NaN. *)
Definition maximum (a b : num) : num :=
  if Num.is_nan a || Num.is_nan b then NaN
  else if (a <? b)%num then b else a.

Definition minimum (a b : num) : num :=
  if Num.is_nan a || Num.is_nan b then NaN
  else if (b <? a)%num then b else a.

End Np.

(** ** The optimizer interface (scipy.optimize.minimize_scalar) *)

Inductive opt_method : Type := Brent | Bounded.

(** The keyword arguments of a call. *)
Record minimize_args : Type := mk_args {
  method : option opt_method;
  bracket : option (num * num);
  bounds : option (num * num);
  tol : option num;
  xatol : option num;
}.

(** The fields of the result that the converters read: [results.success],
    [results.x] and [results.fun]. *)
Record OptimizeResult : Type := mk_result {
  success : bool;
  x_ : num;
  fun_ : num;
}.

(** ** converter.py *)

Section Autodp.

Local Open Scope M_scope.
Local Open Scope num_scope.

(** The optimizer is a library routine: it calls the objective some number
    of times (whatever that prints is printed, whatever it raises is
    raised) and reports a result. *)
Variable minimize_scalar : (num -> M num) -> minimize_args -> M OptimizeResult.

(** [autodp/utils.py] is not part of the sources under study; its three
    log-space primitives are taken as they come. *)
Variable stable_log_diff_exp : num -> num -> M (bool * num).
Variable stable_log_sinh : num -> M num.
Variable stable_logsumexp_two : num -> num -> M num.

(** The builtin [str] on a number (its decimal rendering). *)
Variable str : num -> string.

(** [eps*(math.cosh(eps)-1)/math.sinh(eps)] *)
Definition cosh_sinh_ratio (eps : num) : M num :=
  let* c := mlift (Py.math_cosh eps) in
  let* s := mlift (Py.math_sinh eps) in
  mlift (Py.div (eps * (c - 1)) s).

Definition puredp_to_rdp (eps : num) : res evaluator :=
  if negb (eps >=? 0) then Raise AssertionError else
  Ok (fun alpha =>
    run massert (alpha >=? 0) then
    if alpha =? 1 then
      cosh_sinh_ratio eps
    else if Np.isinf alpha then
      mret eps
    else if alpha >? 1 then
      let* a := stable_log_sinh (alpha * eps) in
      let* b := stable_log_sinh ((alpha - 1) * eps) in
      let* (s, mag) := stable_log_diff_exp a b in
      let* c := stable_log_sinh eps in
      mlift (Py.div (mag - c) (alpha - 1))
    else
      let* q := mlift (Py.div (alpha * eps * eps) 2) in
      let* r := cosh_sinh_ratio eps in
      mret (Py.min q r)).

Definition puredp_to_approxdp (eps : num) : evaluator :=
  fun delta =>
    let* (s, mag) := stable_log_diff_exp eps (Np.log delta) in
    mret mag.

Definition delta_error_message : string :=
  "Error! delta is a probability and must be between 0 and 1".

(** The objective of [rdp_to_approxdp], a function of the order [x]. *)
Definition approxdp_objective (rdp : evaluator) (BBGHS_conversion : bool)
    (delta : num) : num -> M num :=
  fun x =>
    if x <=? 1 then mret Np.inf
    else if BBGHS_conversion then
      let* r := rdp x in
      let* q := mlift (Py.div (x - 1) x) in
      let* t := mlift (Py.div (Np.log delta + Np.log x) (x - 1)) in
      mret (Np.maximum (r + Np.log q - t) 0)
    else
      let* q := mlift (Py.div 1 delta) in
      let* t := mlift (Py.div (Np.log q) (x - 1)) in
      let* r := rdp x in
      mret (t + r).

(** The arguments with which [rdp_to_approxdp] calls the optimizer:
    [method='Brent', bracket=(1,2), bounds=[1, alpha_max]]. *)
Definition approxdp_args (alpha_max : num) : minimize_args :=
  mk_args (Some Brent) (Some (1, 2)) (Some (1, alpha_max)) None None.

Definition rdp_to_approxdp (rdp : evaluator) (alpha_max : num)
    (BBGHS_conversion : bool) : evaluator :=
  fun delta =>
    run (if (delta <? 0) || (delta >? 1)
         then mprint delta_error_message else mret tt) then
    if delta =? 0 then
      rdp Np.inf
    else
      let* results :=
        minimize_scalar (approxdp_objective rdp BBGHS_conversion delta)
          (approxdp_args alpha_max) in
      if success results then mret (fun_ results)
      else mret Np.inf.

(** The two residuals of [single_rdp_to_fdp], KL form ([alpha == 1]). *)
Definition fdp_fun_KL (rho x : num) : num -> M num :=
  fun y =>
    run massert ((0 <=? y) && (y <=? 1 - x)) then
    if y =? 0 then (if x =? 1 then mret 0 else mret Np.inf)
    else if y =? 1 then (if x =? 0 then mret 0 else mret Np.inf)
    else
      let diff1 := x * (Np.log x - Np.log (1 - y))
                   + (1 - x) * (Np.log (1 - x) - Np.log y) - rho in
      let diff2 := y * (Np.log y - Np.log (1 - x))
                   + (1 - y) * (Np.log (1 - y) - Np.log x) - rho in
      mret (Np.maximum diff1 diff2).

(** The same for a general order. *)
Definition fdp_fun_general (alpha rho x : num) : num -> M num :=
  fun y =>
    if y =? 0 then (if x =? 1 then mret 0 else mret Np.inf)
    else if y =? 1 then (if x =? 0 then mret 0 else mret Np.inf)
    else
      let* l1 := stable_logsumexp_two
                   (alpha * Np.log x + (1 - alpha) * Np.log (1 - y))
                   (alpha * Np.log (1 - x) + (1 - alpha) * Np.log y) in
      let diff1 := l1 - rho * (alpha - 1) in
      let* l2 := stable_logsumexp_two
                   (alpha * Np.log y + (1 - alpha) * Np.log (1 - x))
                   (alpha * Np.log (1 - y) + (1 - alpha) * Np.log x) in
      let diff2 := l2 - rho * (alpha - 1) in
      if alpha >? 1 then mret (Np.maximum diff1 diff2)
      else mret (Np.minimum diff1 diff2).

Definition one_half : num := Fin (1 / 2)%R.
Definition xatol_scale : num := Fin (1 / 10 ^ 9)%R.

Definition single_rdp_to_fdp (alpha rho : num) : res evaluator :=
  if negb (alpha >=? one_half) then Raise AssertionError else
  Ok (fun x =>
    run massert ((0 <=? x) && (x <=? 1)) then
    if x =? 0 then mret 1
    else if x =? 1 then mret 0
    else
      let fun' := if alpha =? 1 then fdp_fun_KL rho x
                  else fdp_fun_general alpha rho x in
      let normal_equation := fun y => let* v := fun' y in mret (Num.abs v) in
      let* results :=
        minimize_scalar normal_equation
          (mk_args (Some Bounded) None (Some (0, 1 - x)) None
                   (Some (xatol_scale * (1 - x)))) in
      if success results then mret (x_ results)
      else mret (Fin 0%R)).

Definition rdp_to_fdp (rdp : evaluator) (alpha_max : num) : evaluator :=
  fun x =>
    run massert ((0 <=? x) && (x <=? 1)) then
    if x =? 0 then mret 1
    else if x =? 1 then mret 0
    else
      let fun' := fun alpha =>
        if alpha <? one_half then mret Np.inf
        else
          let* rho := rdp alpha in
          let* single_fdp := mlift (single_rdp_to_fdp alpha rho) in
          let* v := single_fdp x in
          mret (- v) in
      let* results :=
        minimize_scalar fun'
          (mk_args None (Some (one_half, 2)) (Some (one_half, alpha_max))
                   None None) in
      if success results then mret (- fun_ results)
      else mret (Fin 0%R).

(** [numerical_inverse]: the result is [None] when the point is out of
    bounds or the optimizer fails. *)
Definition numerical_inverse (f : evaluator) (bounds : option (num * num))
    (tol : num) : num -> M (option num) :=
  fun y =>
    let out_of_bounds :=
      match bounds with
      | Some (b0, b1) => (y >? b1) || (y <? b0)
      | None => false
      end in
    if out_of_bounds then mret None
    else
      let fun' := fun x => let* v := f x in mret (v - y) in
      let normal_equation := fun x => let* v := fun' x in mret (Num.abs v) in
      let* results :=
        minimize_scalar normal_equation
          (mk_args None (Some (1, 2)) bounds (Some tol) None) in
      if success results then mret (Some (x_ results))
      else mret None.

Definition one_hundredth : num := Fin (1 / 100)%R.

(** [cdf_to_approxdp] with its default [quadrature=True]. *)
Definition cdf_to_approxdp (cdf_p cdf_q : evaluator) : evaluator :=
  let trade_off := fun x =>
    let log_e := Np.log x in
    let* a := cdf_p log_e in
    let* b := cdf_q (- log_e) in
    let result := a + x * b in
    run mprint ("Binary search epsilon " +:+ str log_e +:+
                " current delta " +:+ str (1 - result)) then
    mret result in
  let exp_eps := numerical_inverse trade_off (Some (0, 1)) one_hundredth in
  fun delta =>
    let* t := exp_eps (1 - delta) in
    match t with
    | Some v => mret (Np.log v)
    | None => mraise TypeError
    end.

(** [np.minimum(f1(x), f2(x))] *)
Definition pointwise_minimum (f1 f2 : evaluator) : evaluator :=
  fun x =>
    let* a := f1 x in
    let* b := f2 x in
    mret (Np.minimum a b).


(** ** Mechanisms *)

(** Values of a phi-function: logarithms of characteristic functions,
    complex numbers. *)
Record cnum : Type := mk_cnum { re : num; im : num }.

Definition cadd (a b : cnum) : cnum := mk_cnum (re a + re b) (im a + im b).

(** [c * z] for a real [c]: Python turns [c] into the complex number
    c + 0j and multiplies, (c*re - 0*im) + (c*im + 0*re)j. *)
Definition cscale (c : num) (z : cnum) : cnum :=
  mk_cnum (c * re z - 0 * im z) (c * im z + 0 * re z).
Definition czero : cnum := mk_cnum 0 0.
(** [sum] of a list of complex numbers, from the integer 0. *)
Definition csum (l : list cnum) : cnum := fold_left cadd l czero.

Definition phi_function : Type := num -> M cnum.

(** A reference to a dictionary object. *)
Abbreviation loc := positive.

Record Mechanism : Type := mk_Mechanism {
  name : string;
  params : loc;
  eps_pureDP : num;
  delta0 : num;
  replace_one : bool;
  RenyiDP : option evaluator;
  approxDP : option evaluator;
  exactPhi : bool;
  upperPhi : bool;
  phi_p_lower : option phi_function;
  phi_p_upper : option phi_function;
  phi_q_lower : option phi_function;
  phi_q_upper : option phi_function;
  cdf : option (evaluator * evaluator);
}.

(** An attribute assignment [m.f = v] gives the mechanism with that one
    field changed. *)
Definition set_name (v : string) (m : Mechanism) : Mechanism :=
  mk_Mechanism v (params m) (eps_pureDP m) (delta0 m) (replace_one m)
    (RenyiDP m) (approxDP m) (exactPhi m) (upperPhi m)
    (phi_p_lower m) (phi_p_upper m) (phi_q_lower m) (phi_q_upper m) (cdf m).

Definition set_params (v : loc) (m : Mechanism) : Mechanism :=
  mk_Mechanism (name m) v (eps_pureDP m) (delta0 m) (replace_one m)
    (RenyiDP m) (approxDP m) (exactPhi m) (upperPhi m)
    (phi_p_lower m) (phi_p_upper m) (phi_q_lower m) (phi_q_upper m) (cdf m).

Definition set_eps_pureDP (v : num) (m : Mechanism) : Mechanism :=
  mk_Mechanism (name m) (params m) v (delta0 m) (replace_one m)
    (RenyiDP m) (approxDP m) (exactPhi m) (upperPhi m)
    (phi_p_lower m) (phi_p_upper m) (phi_q_lower m) (phi_q_upper m) (cdf m).

Definition set_delta0 (v : num) (m : Mechanism) : Mechanism :=
  mk_Mechanism (name m) (params m) (eps_pureDP m) v (replace_one m)
    (RenyiDP m) (approxDP m) (exactPhi m) (upperPhi m)
    (phi_p_lower m) (phi_p_upper m) (phi_q_lower m) (phi_q_upper m) (cdf m).

Definition set_replace_one (v : bool) (m : Mechanism) : Mechanism :=
  mk_Mechanism (name m) (params m) (eps_pureDP m) (delta0 m) v
    (RenyiDP m) (approxDP m) (exactPhi m) (upperPhi m)
    (phi_p_lower m) (phi_p_upper m) (phi_q_lower m) (phi_q_upper m) (cdf m).

Definition set_RenyiDP (v : option evaluator) (m : Mechanism) : Mechanism :=
  mk_Mechanism (name m) (params m) (eps_pureDP m) (delta0 m) (replace_one m)
    v (approxDP m) (exactPhi m) (upperPhi m)
    (phi_p_lower m) (phi_p_upper m) (phi_q_lower m) (phi_q_upper m) (cdf m).

Definition set_approxDP (v : option evaluator) (m : Mechanism) : Mechanism :=
  mk_Mechanism (name m) (params m) (eps_pureDP m) (delta0 m) (replace_one m)
    (RenyiDP m) v (exactPhi m) (upperPhi m)
    (phi_p_lower m) (phi_p_upper m) (phi_q_lower m) (phi_q_upper m) (cdf m).

Definition set_exactPhi (v : bool) (m : Mechanism) : Mechanism :=
  mk_Mechanism (name m) (params m) (eps_pureDP m) (delta0 m) (replace_one m)
    (RenyiDP m) (approxDP m) v (upperPhi m)
    (phi_p_lower m) (phi_p_upper m) (phi_q_lower m) (phi_q_upper m) (cdf m).

Definition set_upperPhi (v : bool) (m : Mechanism) : Mechanism :=
  mk_Mechanism (name m) (params m) (eps_pureDP m) (delta0 m) (replace_one m)
    (RenyiDP m) (approxDP m) (exactPhi m) v
    (phi_p_lower m) (phi_p_upper m) (phi_q_lower m) (phi_q_upper m) (cdf m).

Definition set_phi_p_lower (v : option phi_function) (m : Mechanism)
    : Mechanism :=
  mk_Mechanism (name m) (params m) (eps_pureDP m) (delta0 m) (replace_one m)
    (RenyiDP m) (approxDP m) (exactPhi m) (upperPhi m)
    v (phi_p_upper m) (phi_q_lower m) (phi_q_upper m) (cdf m).

Definition set_phi_p_upper (v : option phi_function) (m : Mechanism)
    : Mechanism :=
  mk_Mechanism (name m) (params m) (eps_pureDP m) (delta0 m) (replace_one m)
    (RenyiDP m) (approxDP m) (exactPhi m) (upperPhi m)
    (phi_p_lower m) v (phi_q_lower m) (phi_q_upper m) (cdf m).

Definition set_phi_q_lower (v : option phi_function) (m : Mechanism)
    : Mechanism :=
  mk_Mechanism (name m) (params m) (eps_pureDP m) (delta0 m) (replace_one m)
    (RenyiDP m) (approxDP m) (exactPhi m) (upperPhi m)
    (phi_p_lower m) (phi_p_upper m) v (phi_q_upper m) (cdf m).

Definition set_phi_q_upper (v : option phi_function) (m : Mechanism)
    : Mechanism :=
  mk_Mechanism (name m) (params m) (eps_pureDP m) (delta0 m) (replace_one m)
    (RenyiDP m) (approxDP m) (exactPhi m) (upperPhi m)
    (phi_p_lower m) (phi_p_upper m) (phi_q_lower m) v (cdf m).

Definition set_cdf (v : option (evaluator * evaluator)) (m : Mechanism)
    : Mechanism :=
  mk_Mechanism (name m) (params m) (eps_pureDP m) (delta0 m) (replace_one m)
    (RenyiDP m) (approxDP m) (exactPhi m) (upperPhi m)
    (phi_p_lower m) (phi_p_upper m) (phi_q_lower m) (phi_q_upper m) v.

(** ** The store of dictionaries and the transformer monad *)

(** [params] is a Python dict, a shared mutable object: a mechanism holds a
    reference to it, and the store maps references to contents. *)
Abbreviation store := (gmap loc (gmap string num)).

(** [T A]: a computation that reads and updates the store, then returns or
    raises; updates made before an exception stay. *)
Definition T (A : Type) : Type := store -> res A * store.

Definition tret {A} (a : A) : T A := fun h => (Ok a, h).
Definition traise {A} (e : exn) : T A := fun h => (Raise e, h).
Definition tlift {A} (r : res A) : T A := fun h => (r, h).
Definition tbind {A B} (m : T A) (k : A -> T B) : T B :=
  fun h =>
    match m h with
    | (Ok a, h') => k a h'
    | (Raise e, h') => (Raise e, h')
    end.
Definition tassert (b : bool) : T unit :=
  if b then tret tt else traise AssertionError.

Declare Scope T_scope.
Delimit Scope T_scope with T.
Notation "'let!' x := m 'in' k" := (tbind m (fun x => k))
  (at level 10, x pattern, m at level 100, k at level 200) : T_scope.
Notation "'exec' m 'then' k" := (tbind m (fun _ => k))
  (at level 10, m at level 100, k at level 200) : T_scope.

(** A dict display [{...}] creates a new object. *)
Definition new_dict (d : gmap string num) : T loc :=
  fun h => let l := fresh (dom h) in (Ok l, <[l := d]> h).

(** The contents behind a reference (a live reference is always in the
    store; the default is never reached from well-formed states). *)
Definition contents (l : loc) (h : store) : gmap string num :=
  default ∅ (h !! l).

Definition read_dict (l : loc) : T (gmap string num) :=
  fun h => (Ok (contents l h), h).

(** [d.update(new)]: in place, the new entries win. *)
Definition dict_update (l : loc) (new : gmap string num) : T unit :=
  fun h => (Ok tt, <[l := new ∪ contents l h]> h).

(** ** autodp_core.Mechanism *)

(** Modelled from the spec: the constructor [Mechanism()] of
    [autodp/autodp_core.py], which is not among the sources.  A new
    mechanism holds no representation (section 3: zero or more privacy
    curves), a fresh empty [params] mapping, an infinite pure-DP epsilon
    (no pure-DP guarantee), [delta0] zero (nonzero only for mechanisms with
    support mismatch), the add/remove neighbouring relation, and the flags
    of an exact phi-function. *)
Definition Mechanism_init : T Mechanism :=
  (let! p := new_dict ∅ in
   tret (mk_Mechanism "" p Np.inf 0 false None None true false
           None None None None None))%T.

(** Modelled from the spec: the query accessors of section 4.4.  A stored
    representation is looked up; when there is none the query reports
    infeasibility, which section 7 represents as plus infinity. *)
Definition query (rep : option evaluator) : evaluator :=
  match rep with
  | Some f => f
  | None => fun _ => mret Np.inf
  end.

Definition call_RenyiDP (m : Mechanism) : evaluator := query (RenyiDP m).
Definition call_approxDP (m : Mechanism) : evaluator := query (approxDP m).

(** The value handed to [propagate_updates], tagged by its kind. *)
Inductive update : Type :=
| upd_RDP (rdp : evaluator)
| upd_approxDP_func (eps_of_delta : evaluator)
| upd_pureDP (eps : num)
| upd_cdf (cdf_sym : evaluator)
| upd_cdf_not_sym (cdf_p cdf_q : evaluator).

Record flags : Type := mk_flags {
  BBGHS_conversion : bool;
  fDP_based_conversion : bool;
  take_log : bool;
}.

Definition default_flags : flags := mk_flags true false false.

(** The alternative route RDP -> fDP -> approx-DP of section 4.3
    ([rdp_to_fdp_and_fdp_grad_log] followed by [fdp_fdp_grad_to_approxdp]),
    chosen by the flag [fDP_based_conversion]. *)
Variable fdp_based_rdp_to_approxdp : evaluator -> evaluator.

(** A representation that is present is kept; an absent one is filled. *)
Definition fill {A} (old : option A) (derived : A) : option A :=
  match old with
  | Some v => Some v
  | None => Some derived
  end.

(** Modelled from the spec: [Mechanism.propagate_updates] of
    [autodp/autodp_core.py], which is not among the sources.  Section 4.4:
    the value is stored under its kind; then each representation that is
    not already present is derived by the converter route the kind and the
    flags select; a representation that is present is never overwritten by
    a derived one. *)
Definition propagate_updates (m : Mechanism) (u : update) (fl : flags)
    : res Mechanism :=
  match u with
  | upd_RDP rdp =>
      let route :=
        if fDP_based_conversion fl then fdp_based_rdp_to_approxdp rdp
        else rdp_to_approxdp rdp Np.inf (BBGHS_conversion fl) in
      let m1 := set_RenyiDP (Some rdp) m in
      Ok (set_approxDP (fill (approxDP m1) route) m1)
  | upd_approxDP_func f =>
      Ok (set_approxDP (Some f) m)
  | upd_pureDP eps =>
      rbind (puredp_to_rdp eps) (fun rdp =>
        let m1 := set_eps_pureDP eps m in
        let m2 := set_RenyiDP (fill (RenyiDP m1) rdp) m1 in
        Ok (set_approxDP (fill (approxDP m2) (puredp_to_approxdp eps)) m2))
  | upd_cdf c =>
      let m1 := set_cdf (Some (c, c)) m in
      Ok (set_approxDP (fill (approxDP m1) (cdf_to_approxdp c c)) m1)
  | upd_cdf_not_sym cp cq =>
      let m1 := set_cdf (Some (cp, cq)) m in
      Ok (set_approxDP (fill (approxDP m1) (cdf_to_approxdp cp cq)) m1)
  end.

(** ** mechanism_zoo.py *)

Definition PureDP_Mechanism (eps : num) (name : string) : T Mechanism :=
  (let! self := Mechanism_init in
   let self := set_name name self in
   let! p := new_dict {[ "eps" := eps ]} in
   let self := set_params p self in
   tlift (propagate_updates self (upd_pureDP eps) default_flags))%T.

(** ** transformer_zoo.py *)

(** A list comprehension whose elements are evaluated in order. *)
Fixpoint mmap {A B} (f : A -> M B) (l : list A) : M (list B) :=
  match l with
  | [] => mret []
  | a :: l' =>
      let* b := f a in
      let* bs := mmap f l' in
      mret (b :: bs)
  end.

(** [sep.join(l)] *)
Definition join (sep : string) (l : list string) : string :=
  match l with
  | [] => ""
  | s :: l' => fold_left (fun acc t => acc +:+ sep +:+ t) l' s
  end.

(** [update_name] and [update_params] are written twice in the source,
    with the same text, in [Composition] and in [ComposeAFA]. *)
Definition update_name (mechanism_list : list Mechanism)
    (coeff_list : list num) : string :=
  let s := join ", "
             (map (fun mc => name (fst mc) +:+ ": " +:+ str (snd mc))
                  (zip mechanism_list coeff_list)) in
  "Compose:{" +:+ s +:+ "}".

Definition params_cur (mech : Mechanism) (d : gmap string num)
    : gmap string num :=
  kmap (fun k => name mech +:+ ":" +:+ k) d.

Fixpoint update_params_loop (p : loc) (mechanism_list : list Mechanism)
    : T unit :=
  match mechanism_list with
  | [] => tret tt
  | mech :: rest =>
      (let! d := read_dict (params mech) in
       exec dict_update p (params_cur mech d) then
       update_params_loop p rest)%T
  end.

Definition update_params (mechanism_list : list Mechanism) : T loc :=
  (let! p := new_dict ∅ in
   exec update_params_loop p mechanism_list then
   tret p)%T.

(** *** Composition *)

Definition Composition_newrdp (mechanism_list : list Mechanism)
    (coeff_list : list num) : evaluator :=
  fun x =>
    let* vs := mmap (fun mc =>
                       let* r := call_RenyiDP (fst mc) x in
                       mret (snd mc * r))
                    (zip mechanism_list coeff_list) in
    mret (Py.sum vs).

Definition Composition_compose (mechanism_list : list Mechanism)
    (coeff_list : list num)
    (RDP_compose_only BBGHS_conversion fDP_based_conversion : bool)
    : T Mechanism :=
  (let! newmech := Mechanism_init in
   let newrdp := Composition_newrdp mechanism_list coeff_list in
   let! newmech :=
     tlift (propagate_updates newmech (upd_RDP newrdp)
              (mk_flags BBGHS_conversion fDP_based_conversion false)) in
   let newmech :=
     set_eps_pureDP
       (Py.sum (map (fun mc => snd mc * eps_pureDP (fst mc))
                    (zip mechanism_list coeff_list))) newmech in
   let! d0 := tlift (Py.max (map (fun mc => delta0 (fst mc))
                                 (zip mechanism_list coeff_list))) in
   let newmech := set_delta0 d0 newmech in
   let newmech := set_name (update_name mechanism_list coeff_list) newmech in
   let! p := update_params mechanism_list in
   tret (set_params p newmech))%T.

(** *** ComposeAFA *)

(** [cdf_bank.cdf_approx] is not among the sources: it turns a
    phi-function and a point into a CDF value. *)
Variable cdf_approx : phi_function -> num -> M num.

(** [sum([c * mech.phi(x) for (mech, c) in zip(...)])] for one of the four
    phi attributes; an attribute that was never set raises. *)
Definition new_phi (attr : Mechanism -> option phi_function)
    (mechanism_list : list Mechanism) (coeff_list : list num) : phi_function :=
  fun x =>
    let* vs := mmap (fun mc =>
                       match attr (fst mc) with
                       | Some phi => let* v := phi x in mret (cscale (snd mc) v)
                       | None => mraise AttributeError
                       end)
                    (zip mechanism_list coeff_list) in
    mret (csum vs).

Definition new_phi_p_lower := new_phi phi_p_lower.
Definition new_phi_p_upper := new_phi phi_p_upper.
Definition new_phi_q_lower := new_phi phi_q_lower.
Definition new_phi_q_upper := new_phi phi_q_upper.

(** The loop that inspects the flags of the composed mechanisms; the state
    is [(newmech.exactPhi, upper_bound, lower_bound)]. *)
Definition direction_step (st : bool * bool * bool) (mech : Mechanism)
    : bool * bool * bool :=
  let '(exact, upper_bound, lower_bound) := st in
  if negb (exactPhi mech) then
    if upperPhi mech then (false, true, lower_bound)
    else (false, upper_bound, true)
  else st.

Definition directions (mechanism_list : list Mechanism) : bool * bool * bool :=
  fold_left direction_step mechanism_list (true, false, false).

Definition ComposeAFA_compose (mechanism_list : list Mechanism)
    (coeff_list : list num) : T Mechanism :=
  (let! newmech := Mechanism_init in
   let '(exact, upper_bound, lower_bound) := directions mechanism_list in
   let newmech := set_exactPhi exact newmech in
   exec tassert (negb (lower_bound && upper_bound)) then
   let p_lower := fun x => new_phi_p_lower mechanism_list coeff_list x in
   let p_upper := fun x => new_phi_p_upper mechanism_list coeff_list x in
   let q_lower := fun x => new_phi_q_lower mechanism_list coeff_list x in
   let q_upper := fun x => new_phi_q_upper mechanism_list coeff_list x in
   let '(newmech, cdf_p, cdf_q) :=
     if exactPhi newmech then
       let newmech := set_phi_p_lower (Some p_lower) newmech in
       let newmech := set_phi_p_upper (Some p_upper) newmech in
       let newmech := set_phi_q_lower (Some q_lower) newmech in
       let newmech := set_phi_q_upper (Some q_upper) newmech in
       (newmech, (fun x => cdf_approx p_upper x) : evaluator,
                 (fun x => cdf_approx q_upper x) : evaluator)
     else if lower_bound then
       let newmech := set_phi_p_lower (Some p_lower) newmech in
       let newmech := set_phi_q_lower (Some q_lower) newmech in
       (newmech, (fun x => cdf_approx p_lower x) : evaluator,
                 (fun x => cdf_approx q_lower x) : evaluator)
     else
       let newmech := set_phi_p_upper (Some p_upper) newmech in
       let newmech := set_phi_q_upper (Some q_upper) newmech in
       (newmech, (fun x => cdf_approx p_upper x) : evaluator,
                 (fun x => cdf_approx p_upper x) : evaluator) in
   let newmech := set_cdf (Some (cdf_p, cdf_q)) newmech in
   let! newmech :=
     tlift (propagate_updates newmech (upd_cdf_not_sym cdf_p cdf_q)
              (mk_flags true false true)) in
   let newmech := set_name (update_name mechanism_list coeff_list) newmech in
   let! p := update_params mechanism_list in
   tret (set_params p newmech))%T.

(** *** AmplificationBySampling *)

Record AmplificationBySampling : Type := mk_AmplificationBySampling {
  self_name : string;
  PoissonSampling : bool;
}.

Definition AmplificationBySampling_init (PoissonSampling : bool)
    : AmplificationBySampling :=
  mk_AmplificationBySampling
    (if PoissonSampling then "PoissonSample" else "Subsample")
    PoissonSampling.

(** [autodp/rdp_acct.py] is not among the sources.  Its accountant is
    created, fed the RDP of the base mechanism and the sampling probability
    through one of four entry points (Poisson or not, improved bound or
    not), and asked for its oracle [evalRDP]. *)
Variable anaRDPacct_evalRDP : bool -> bool -> evaluator -> num -> res evaluator.

(** The key of the [num]-th attempt of the bookkeeping loop; [str] of the
    integer counter is its decimal rendering. *)
Definition amplify_newname (self : AmplificationBySampling) (num : nat)
    : string :=
  match num with
  | O => self_name self
  | S _ => self_name self +:+ pretty num
  end.

Definition amplify_key (self : AmplificationBySampling) (prob : num)
    (num : nat) : string :=
  amplify_newname self num +:+ "_" +:+ str prob.

(** [while key in mechanism.params: ...], run for at most [fuel] tests. *)
Fixpoint amplify_loop (fuel : nat) (self : AmplificationBySampling)
    (prob : num) (d : gmap string num) (num : nat) : res string :=
  match fuel with
  | O => Raise OutOfFuel
  | S fuel' =>
      match d !! amplify_key self prob num with
      | Some _ => amplify_loop fuel' self prob d (S num)
      | None => Ok (amplify_newname self num)
      end
  end.

Definition new_approxDP (mechanism : Mechanism) (prob : num) : evaluator :=
  if prob =? 0 then
    fun delta => mret 0
  else
    fun delta =>
      let* q := mlift (Py.div delta prob) in
      let* e := call_approxDP mechanism q in
      mret (Np.log (1 + prob * (Np.exp e - 1))).

Definition AmplificationBySampling_amplify (self : AmplificationBySampling)
    (mechanism : Mechanism) (prob : num) (improved_bound_flag : bool)
    : T Mechanism :=
  (let! newmech := Mechanism_init in
   let! newmech :=
     if PoissonSampling self then
       exec tassert (negb (replace_one mechanism)) then
       tret (set_replace_one false newmech)
     else
       exec tassert (replace_one mechanism) then
       tret (set_replace_one true newmech) in
   let newmech := set_approxDP (Some (new_approxDP mechanism prob)) newmech in
   let! new_rdp :=
     tlift (anaRDPacct_evalRDP (PoissonSampling self) improved_bound_flag
              (call_RenyiDP mechanism) prob) in
   let! newmech :=
     tlift (propagate_updates newmech (upd_RDP new_rdp) default_flags) in
   let! d := read_dict (params mechanism) in
   let! newname := tlift (amplify_loop (S (size d)) self prob d 0) in
   let newmech := set_name (newname +:+ ":" +:+ name mechanism) newmech in
   let newmech := set_params (params mechanism) newmech in
   exec dict_update (params newmech) {[ newname := prob ]} then
   tret newmech)%T.

(** ** Instances of the outside routines and sample inputs, for the examples *)

(** Modelled from the spec: the three log-space primitives of
    [autodp/utils.py], which is not among the sources, as section 4.1
    describes them, over exact reals: log(sinh x), log(e^a + e^b), and the
    sign and the magnitude log|e^a - e^b| of a difference (the magnitude
    is minus infinity when a = b).  They work in log space so as not to
    overflow, and are given with the exponential and the hyperbolic sine
    of the extended reals. *)
Definition exp_ext (a : num) : num :=
  match a with
  | Fin x => Fin (exp x)
  | PInf => PInf
  | NInf => Fin 0%R
  | NaN => NaN
  end.
Definition sinh_ext (a : num) : num :=
  match a with
  | Fin x => Fin (sinh x)
  | PInf => PInf
  | NInf => NInf
  | NaN => NaN
  end.
Definition spec_log_sinh : num -> M num :=
  fun x => mret (Np.log (sinh_ext x)).
Definition spec_logsumexp_two : num -> num -> M num :=
  fun a b => mret (Np.log (exp_ext a + exp_ext b)).
Definition spec_log_diff_exp : num -> num -> M (bool * num) :=
  fun a b => mret (negb (a <? b), Np.log (Num.abs (exp_ext a - exp_ext b))).

(** An optimizer that reports a fixed result without looking. *)
Definition constant_minimizer (r : OptimizeResult)
    : (num -> M num) -> minimize_args -> M OptimizeResult :=
  fun _ _ => mret r.
Definition gave_up : OptimizeResult := mk_result false NaN NaN.
Definition found_half : OptimizeResult := mk_result true 2 (Fin (1 / 2)%R).

(** A rendering of numbers good for one number, 0.5. *)
Definition str_half : num -> string := fun _ => "0.5".

(** An fDP-based route that reports infeasibility everywhere. *)
Definition no_fdp_route : evaluator -> evaluator :=
  fun _ _ => mret Np.inf.

(** A CDF approximation that reads off the real part. *)
Definition re_cdf_approx : phi_function -> num -> M num :=
  fun phi x => let* z := phi x in mret (re z).

(** An accountant without amplification: the RDP of the base mechanism. *)
Definition plain_acct : bool -> bool -> evaluator -> num -> res evaluator :=
  fun _ _ rdp _ => Ok rdp.

(** A mechanism with pure-DP epsilon 1, named and parametrised as
    [PureDP_Mechanism(1.0)] is, with its [params] at reference 1, and the
    store that goes with it.  Its RDP curve is kept to what the examples
    query: epsilon at the infinite order, no bound elsewhere. *)
Definition pure_one : Mechanism :=
  mk_Mechanism "PureDP" 1%positive (Fin 1) 0 false
    (Some (fun alpha => if Np.isinf alpha then mret (Fin 1) else mret Np.inf))
    None true false None None None None None.
Definition pure_one_store : store := {[ 1%positive := {[ "eps" := Fin 1 ]} ]}.

(** A mechanism with upper-bound phi-functions only, whose q side differs
    from its p side. *)
Definition upper_only : Mechanism :=
  mk_Mechanism "Subsample_Gaussian_phi" 1%positive Np.inf 0 false None None
    false true
    None (Some (fun t => mret (mk_cnum t 0)))
    None (Some (fun t => mret (mk_cnum 0 t))) None.

(** The same with lower-bound phi-functions only. *)
Definition lower_only : Mechanism :=
  mk_Mechanism "Subsample_Gaussian_phi" 1%positive Np.inf 0 false None None
    false false
    (Some (fun t => mret (mk_cnum t 0))) None
    (Some (fun t => mret (mk_cnum 0 t))) None None.

(** The RDP curve of a Gaussian mechanism with sigma = 5, alpha / 50. *)
Definition gaussian5_rdp : evaluator := fun alpha => mret (alpha * Fin (1 / 50)%R).

(** ** Sums of reals, for stating what composition computes *)

Definition Rsum (l : list R) : R := fold_right Rplus 0%R l.

(** The weighted sum c_1 * v_1 + ... + c_n * v_n. *)
Definition weighted_sum (cs vs : list R) : R := Rsum (zip_with Rmult cs vs).

(** ** Bound directions of phi-functions, for stating what ComposeAFA checks *)

(** A mechanism that carries only an upper-bound phi-function, and one
    that carries only a lower-bound phi-function, as the flags tell. *)
Definition only_upper (m : Mechanism) : bool := negb (exactPhi m) && upperPhi m.
Definition only_lower (m : Mechanism) : bool :=
  negb (exactPhi m) && negb (upperPhi m).

(** The store after the constructor [Mechanism()] has run. *)
Definition after_init (h : store) : store := <[fresh (dom h) := ∅]> h.

(** The three (phi, CDF) branches of [ComposeAFA.compose]. *)
Definition AFA_cdf_pair (ml : list Mechanism) (cl : list num)
    : evaluator * evaluator :=
  let p_lower := fun x => new_phi_p_lower ml cl x in
  let p_upper := fun x => new_phi_p_upper ml cl x in
  let q_lower := fun x => new_phi_q_lower ml cl x in
  let q_upper := fun x => new_phi_q_upper ml cl x in
  if forallb exactPhi ml then
    (fun x => cdf_approx p_upper x, fun x => cdf_approx q_upper x)
  else if existsb only_lower ml then
    (fun x => cdf_approx p_lower x, fun x => cdf_approx q_lower x)
  else
    (fun x => cdf_approx p_upper x, fun x => cdf_approx p_upper x).

(** A list mixes the two bound directions. *)
Definition mixes_directions (ml : list Mechanism) : Prop :=
  (exists m, In m ml /\ exactPhi m = false /\ upperPhi m = false)
  /\ (exists m, In m ml /\ exactPhi m = false /\ upperPhi m = true).

(** * More of converter.py *)

(** [np.max(np.array([...]))]: the largest element, NaN as soon as one
    element is NaN; no maximum of an empty array. *)
Definition np_max (l : list num) : res num :=
  match l with
  | [] => Raise ValueError
  | a :: l' => Ok (fold_left Np.maximum l' a)
  end.

Definition puredp_to_fdp (eps : num) : evaluator :=
  fun fpr =>
    mlift (np_max [0; 1 - Np.exp eps * fpr; Np.exp (- eps) * (1 - fpr)]).

Definition approxdp_to_fdp (eps delta : num) : res evaluator :=
  if negb ((eps >=? 0) && ((0 <=? delta) && (delta <=? 1)))
  then Raise AssertionError else
  Ok (fun fpr =>
    run massert ((0 <=? fpr) && (fpr <=? 1)) then
    if fpr =? 0 then mret (1 - delta)
    else if Np.isinf eps then mret 0
    else
      mlift (np_max [0; 1 - delta - Np.exp eps * fpr;
                     Np.exp (- eps) * (1 - delta - fpr)])).

(** The two optimizer calls of [approxdp_func_to_fdp]. *)
Definition fdp_of_eps_args : minimize_args :=
  mk_args None None (Some (0, Np.inf)) None None.
Definition fdp_of_delta_args (fpr : num) : minimize_args :=
  mk_args (Some Bounded) None (Some (0, 1 - fpr)) None None.

Definition approxdp_func_to_fdp (func : evaluator) (delta_func : bool)
    : evaluator :=
  if delta_func then
    fun fpr =>
      run massert ((0 <=? fpr) && (fpr <=? 1)) then
      if fpr =? 1 then mret 0
      else
        let fun' := fun eps =>
          let* d := func eps in
          let* fdp_eps := mlift (approxdp_to_fdp eps d) in
          let* fnr := fdp_eps fpr in
          mret (- fnr) in
        let* results := minimize_scalar fun' fdp_of_eps_args in
        if success results then mret (- fun_ results)
        else mret 0
  else
    fun fpr =>
      run massert ((0 <=? fpr) && (fpr <=? 1)) then
      if fpr =? 1 then mret 0
      else
        let fun' := fun delta =>
          let* e := func delta in
          let* fdp_delta := mlift (approxdp_to_fdp e delta) in
          let* fnr := fdp_delta fpr in
          mret (- fnr) in
        let* results := minimize_scalar fun' (fdp_of_delta_args fpr) in
        if success results then mret (- fun_ results)
        else mret 0.

(** An approximate-RDP function takes an order and a delta. *)
Definition approxdp_to_approxrdp (eps delta : num) : num -> num -> M num :=
  fun alpha delta1 =>
    if delta1 >=? delta then
      let* rdp := mlift (puredp_to_rdp eps) in
      rdp alpha
    else mret Np.inf.

Definition approxdp_func_to_approxrdp (eps_func : evaluator)
    : num -> num -> M num :=
  fun alpha delta =>
    let* eps := eps_func delta in
    let* rdp := mlift (puredp_to_rdp eps) in
    rdp alpha.

(** *** rdp_to_delta *)

(** The objective of the inner search of [rdp_to_delta], a function of the
    order [x]; the RDP curve is queried twice on the tight path. *)
Definition get_eps_objective (rdp : evaluator) (naive : bool) (delta : num)
    : num -> M num :=
  fun x =>
    if x <=? 1 then mret Np.inf
    else if naive then
      let* q := mlift (Py.div 1 delta) in
      let* t := mlift (Py.div (Np.log q) (x - 1)) in
      let* r := rdp x in
      mret (t + r)
    else
      let* r := rdp x in
      let* q := mlift (Py.div (x - 1) x) in
      let* t := mlift (Py.div (Np.log delta + Np.log x) (x - 1)) in
      let bbghs := Np.maximum (r + Np.log q - t) 0 in
      let* r' := rdp x in
      let* (sign, term_1) := stable_log_diff_exp ((x - 1) * r') 0 in
      let* result :=
        stable_logsumexp_two (term_1 - Np.log x - Np.log delta) 0 in
      let* v := mlift (Py.div (result * 1) (x - 1)) in
      mret (Py.min v bbghs).

Definition hundred_thousand : num := Fin 100000%R.

Definition get_eps (rdp : evaluator) (naive : bool) : evaluator :=
  fun delta =>
    if delta =? 0 then rdp Np.inf
    else
      let* results :=
        minimize_scalar (get_eps_objective rdp naive delta)
          (approxdp_args hundred_thousand) in
      if success results then mret (fun_ results)
      else mret Np.inf.

Definition one_tenth : num := Fin (1 / 10)%R.
Definition xatol_delta : num := Fin (1 / 10 ^ 14)%R.

(** The arguments of the outer search:
    [method='bounded', bounds=[0, 0.1], options={'xatol':1e-14}]. *)
Definition delta_args : minimize_args :=
  mk_args (Some Bounded) None (Some (0, one_tenth)) None (Some xatol_delta).

Definition rdp_to_delta (rdp : evaluator) : num -> bool -> M num :=
  fun eps naive =>
    let err := fun delta =>
      let* current_eps := get_eps rdp naive delta in
      mret (Num.abs (eps - current_eps)) in
    let* results := minimize_scalar err delta_args in
    if success results then mret (x_ results)
    else
      run mprint "not found" then
      mret 1.

(** *** CDF pairs, conjugates and inverses *)

Definition cdf_to_approxdelta (cdf_p cdf_q : evaluator) : evaluator :=
  fun eps =>
    let* a := cdf_p eps in
    let* b := cdf_q (- eps) in
    mret (1 - a - Np.exp eps * b).

(** The local function [trade_off] of [cdf_to_approxdp], by itself. *)
Definition cdf_trade_off (cdf_p cdf_q : evaluator) : evaluator :=
  fun x =>
    let log_e := Np.log x in
    let* a := cdf_p log_e in
    let* b := cdf_q (- log_e) in
    let result := a + x * b in
    run mprint ("Binary search epsilon " +:+ str log_e +:+
                " current delta " +:+ str (1 - result)) then
    mret result.

Definition conjugate_tol : num := Fin (1 / 10 ^ 10)%R.
Definition inverse_tol : num := Fin (1 / 10 ^ 6)%R.

(** [conjugate(f, tol)]: [None] when the optimizer fails. *)
Definition conjugate (f : evaluator) (tol : num) : num -> M (option num) :=
  fun x =>
    let fun' := fun y => let* v := f y in mret (- y * x + v) in
    let* results :=
      minimize_scalar fun'
        (mk_args (Some Bounded) None (Some (0, 1)) None (Some tol)) in
    if success results then mret (Some (- (fun_ results + tol)))
    else mret None.

(** A number times [None] is a type error. *)
Definition times_option (a : num) (b : option num) : M num :=
  match b with
  | Some v => mret (a * v)
  | None => mraise TypeError
  end.

(** [np.log] of what [numerical_inverse] returned. *)
Definition log_option (t : option num) : M num :=
  match t with
  | Some v => mret (Np.log v)
  | None => mraise TypeError
  end.

Definition fdp_to_approxdp (fdp : evaluator) : evaluator :=
  let fstar := conjugate fdp conjugate_tol in
  let neg_fstar_neg_input := fun x =>
    let* v := fstar (Num.neg 1 * x) in
    times_option (Num.neg 1) v in
  let exp_eps := numerical_inverse neg_fstar_neg_input (Some (0, 1))
                   inverse_tol in
  fun delta =>
    let* t := exp_eps (1 - delta) in
    log_option t.

Definition approxdp_from_its_inverse (delta_func : evaluator)
    : num -> M (option num) :=
  numerical_inverse delta_func (Some (0, 1)) inverse_tol.

(** [np.maximum(f1(x), f2(x))] *)
Definition pointwise_maximum (f1 f2 : evaluator) : evaluator :=
  fun x =>
    let* a := f1 x in
    let* b := f2 x in
    mret (Np.maximum a b).

(** ** Real-valued forms, for stating what the closed-form converters compute *)

(** The trade-off function of pure DP on real arguments. *)
Definition pure_tradeoff (e x : R) : R :=
  Rmax (Rmax 0 (1 - exp e * x)) (exp (- e) * (1 - x)).

(** The trade-off function of (eps, delta)-DP away from fpr = 0. *)
Definition approx_tradeoff (e d x : R) : R :=
  Rmax (Rmax 0 (1 - d - exp e * x)) (exp (- e) * (1 - d - x)).

(** The objective that [numerical_inverse] hands to the optimizer for the
    point [y], and its call. *)
Definition inverse_objective (f : evaluator) (y : num) : num -> M num :=
  fun x =>
    let* v := (let* v := f x in mret (v - y)) in
    mret (Num.abs v).

Definition inverse_args (bounds : option (num * num)) (tol : num)
    : minimize_args :=
  mk_args None (Some (1, 2)) bounds (Some tol) None.

(** ** The dictionary that update_params builds, for stating its properties *)

(** The entries one mechanism contributes: its parameters, each key
    prefixed with the mechanism's name and a colon. *)
Definition named_params (h : store) (m : Mechanism) : gmap string num :=
  params_cur m (contents (params m) h).

(** The entries of all mechanisms, a later mechanism winning over an
    earlier one on a common key. *)
Definition merged_params (h : store) (ml : list Mechanism)
    : gmap string num :=
  fold_left (fun acc d => d ∪ acc) (map (named_params h) ml) ∅.

(** * More of mechanism_zoo.py *)

(** [autodp/phi_bank.py] is not among the sources.  Its two phi-functions
    of the subsampled Gaussian take the parameter dictionary, the point,
    and one of the keywords [phi_min=True], [phi_max=True], or neither. *)
Inductive phi_keyword : Type := phi_min | phi_max | no_keyword.

Variable phi_subsample_gaussian_p : gmap string num -> phi_keyword -> phi_function.
Variable phi_subsample_gaussian_q : gmap string num -> phi_keyword -> phi_function.

(** [SubSampleGaussian_phi(sigma, gamma, coeff, name, lower_bound,
    upper_bound)].  The closures [phi_p] and [phi_q] look [self.params] up
    when they are called; here they are given the dictionary that the
    constructor has just built.  A chained assignment [a = b = v] assigns
    left to right. *)
Definition SubSampleGaussian_phi (sigma gamma coeff : num) (name : string)
    (lower_bound upper_bound : bool) : T Mechanism :=
  (let! self := Mechanism_init in
   let self := set_name name self in
   let d : gmap string num := {[ "sigma" := sigma; "gamma" := gamma ]} in
   let! p := new_dict d in
   let self := set_params p self in
   let self := set_delta0 0 self in
   let '(self, phi_p, phi_q) :=
     if lower_bound then
       let self := set_exactPhi false self in
       let phi_p := phi_subsample_gaussian_p d phi_min in
       let phi_q := phi_subsample_gaussian_q d phi_min in
       let self := set_phi_p_lower (Some phi_p) self in
       let self := set_phi_q_lower (Some phi_q) self in
       (self, phi_p, phi_q)
     else if upper_bound then
       let self := set_exactPhi false self in
       let phi_p := phi_subsample_gaussian_p d phi_max in
       let phi_q := phi_subsample_gaussian_q d phi_max in
       let self := set_phi_p_upper (Some phi_p) self in
       let self := set_phi_q_upper (Some phi_q) self in
       (self, phi_p, phi_q)
     else
       let self := set_exactPhi false self in
       let phi_p := phi_subsample_gaussian_p d no_keyword in
       let phi_q := phi_subsample_gaussian_q d no_keyword in
       let self := set_phi_p_lower (Some phi_p) self in
       let self := set_phi_p_upper (Some phi_p) self in
       let self := set_phi_q_lower (Some phi_q) self in
       let self := set_phi_q_lower (Some phi_q) self in
       (self, phi_p, phi_q) in
   let cdf_p : evaluator := fun x => cdf_approx phi_p x in
   let cdf_q : evaluator := fun x => cdf_approx phi_q x in
   let self := set_cdf (Some (cdf_p, cdf_q)) self in
   tlift (propagate_updates self (upd_cdf_not_sym cdf_p cdf_q)
            (mk_flags true false true)))%T.

(** * Doubles: the pure-DP epsilon of a composition in IEEE arithmetic *)

(** [sum([c * mech.eps_pureDP for (mech, c) in zip(mechanism_list,
    coeff_list)])] of [Composition.compose] on IEEE doubles (binary64,
    rounding to nearest, the arithmetic of Python's [float]), from the
    list of the epsilons.  The builtin [sum] starts from the integer 0,
    which the first addition turns into the double 0.0, and adds from left
    to right. *)
Definition float_sum (l : list float) : float :=
  fold_left PrimFloat.add l 0%float.

Definition compose_eps_pureDP (eps_list coeff_list : list float) : float :=
  float_sum (map (fun ec => PrimFloat.mul (snd ec) (fst ec))
                 (zip eps_list coeff_list)).

(** The double nearest to 0.1, which is what the literal [0.1] denotes. *)
Definition one_tenth_double : float := 0x1.999999999999ap-4%float.

(** ** What a mechanism carries, as its phi attributes tell *)

Definition carries_only_lower (m : Mechanism) : Prop :=
  is_Some (phi_p_lower m) /\ is_Some (phi_q_lower m)
  /\ phi_p_upper m = None /\ phi_q_upper m = None.

Definition carries_only_upper (m : Mechanism) : Prop :=
  is_Some (phi_p_upper m) /\ is_Some (phi_q_upper m)
  /\ phi_p_lower m = None /\ phi_q_lower m = None.

(** ** More sample inputs *)

(** A mechanism under the add/remove relation whose approx-DP curve is
    constantly 1. *)
Definition approx_one : Mechanism :=
  mk_Mechanism "PureDP" 1%positive (Fin 1) 0 false
    None (Some (fun _ => mret (Fin 1))) true false None None None None None.

(** A phi bank whose functions are the identity on the real axis. *)
Definition identity_phi_bank : gmap string num -> phi_keyword -> phi_function :=
  fun _ _ t => mret (mk_cnum t 0).

(** * Properties *)

(** ** Deciding comparisons of reals *)

Lemma Rltb_true x y : (x < y)%R -> Rltb x y = true.
Proof. intros H. unfold Rltb. destruct (Rlt_dec x y); [reflexivity | contradiction]. Qed.

Lemma Rltb_false x y : (y <= x)%R -> Rltb x y = false.
Proof. intros H. unfold Rltb. destruct (Rlt_dec x y); [lra | reflexivity]. Qed.

Lemma Reqb_true x y : x = y -> Reqb x y = true.
Proof. intros H. unfold Reqb. destruct (Req_dec_T x y); [reflexivity | contradiction]. Qed.

Lemma Reqb_false x y : x <> y -> Reqb x y = false.
Proof. intros H. unfold Reqb. destruct (Req_dec_T x y); [contradiction | reflexivity]. Qed.

(** Decide every comparison of reals in the goal, closing the impossible
    branches by linear arithmetic. *)
Ltac decide_reals :=
  unfold Rltb, Rleb, Reqb in *;
  repeat match goal with
  | |- context [Rlt_dec ?x ?y] => destruct (Rlt_dec x y); try lra
  | |- context [Rle_dec ?x ?y] => destruct (Rle_dec x y); try lra
  | |- context [Req_dec_T ?x ?y] => destruct (Req_dec_T x y); try lra
  end.

(** The same without case analysis: rewrite each comparison whose outcome
    linear arithmetic settles, leaving the shape of the goal alone. *)
Ltac settle_cmp :=
  unfold Num.geb, Num.leb, Num.gtb, Num.zero, Num.one, Num.two;
  cbn [Num.ltb Num.eqb Np.isinf Num.is_nan];
  repeat match goal with
  | |- context [Rltb ?x ?y] =>
      first [rewrite (Rltb_true x y) by lra | rewrite (Rltb_false x y) by lra]
  | |- context [Reqb ?x ?y] =>
      first [rewrite (Reqb_true x y) by lra | rewrite (Reqb_false x y) by lra]
  end;
  cbn [orb andb negb].

Lemma geb_zero_Fin e : (0 <= e)%R -> (Fin e >=? 0) = true.
Proof.
  intros H. unfold Num.geb, Num.leb, Num.ltb, Num.eqb, Num.zero.
  decide_reals; reflexivity.
Qed.

Lemma mbind_ret_l {A B} (a : A) (k : A -> M B) : mbind (mret a) k = k a.
Proof. unfold mbind, mret. destruct (k a). reflexivity. Qed.

Lemma mbind_ret_r {A} (m : M A) : mbind m mret = m.
Proof.
  destruct m as [out [a | e]]; unfold mbind, mret; simpl; [|reflexivity].
  by rewrite app_nil_r.
Qed.

Lemma mbind_raise {A B} (e : exn) (k : A -> M B) : mbind (mraise e) k = mraise e.
Proof. reflexivity. Qed.

Lemma mbind_assoc {A B C} (m : M A) (k : A -> M B) (k' : B -> M C) :
  mbind (mbind m k) k' = mbind m (fun a => mbind (k a) k').
Proof.
  destruct m as [out [a | e]]; unfold mbind; simpl; [|reflexivity].
  destruct (k a) as [out1 [b | e1]]; simpl; [|reflexivity].
  destruct (k' b) as [out2 r]. by rewrite app_assoc.
Qed.

(** ** converter.py: pure DP, RDP and approximate DP *)

(** The evaluator built by [puredp_to_rdp] returns [eps] at the infinite
    order. *)
Lemma puredp_to_rdp_at_inf eps rdp :
  puredp_to_rdp eps = Ok rdp -> rdp Np.inf = mret eps.
Proof.
  unfold puredp_to_rdp. destruct (negb (eps >=? 0)); [discriminate|].
  intros [= <-]. reflexivity.
Qed.

Lemma rdp_to_approxdp_at_zero rdp alpha_max bbghs :
  rdp_to_approxdp rdp alpha_max bbghs 0 = rdp Np.inf.
Proof.
  unfold rdp_to_approxdp.
  replace ((0 <? 0) || (0 >? 1)) with false.
  2:{ unfold Num.gtb, Num.ltb, Num.zero, Num.one. decide_reals; reflexivity. }
  replace (0 =? 0) with true.
  2:{ unfold Num.eqb, Num.zero. decide_reals; reflexivity. }
  by rewrite mbind_ret_l.
Qed.

(** C3.  For every eps >= 0 (finite or infinite), converting the pure-DP
    epsilon to RDP and then to approximate DP, and querying at delta = 0,
    returns exactly eps: nothing is printed, nothing is raised, whatever
    the order ceiling and the conversion method. *)
Theorem puredp_rdp_approxdp_roundtrip (eps : num) (alpha_max : num)
    (bbghs : bool) :
  (eps >=? 0) = true ->
  exists rdp, puredp_to_rdp eps = Ok rdp
              /\ rdp_to_approxdp rdp alpha_max bbghs 0 = mret eps.
Proof.
  intros Heps. unfold puredp_to_rdp at 1. rewrite Heps. simpl.
  eexists. split; [reflexivity|].
  rewrite rdp_to_approxdp_at_zero. reflexivity.
Qed.

Lemma math_cosh_Fin x :
  (Rabs x <= Py.cosh_max)%R -> Py.math_cosh (Fin x) = Ok (Fin (cosh x)).
Proof. intros H. unfold Py.math_cosh. by rewrite Rltb_false by lra. Qed.

Lemma math_sinh_Fin x :
  (Rabs x <= Py.cosh_max)%R -> Py.math_sinh (Fin x) = Ok (Fin (sinh x)).
Proof. intros H. unfold Py.math_sinh. by rewrite Rltb_false by lra. Qed.

Lemma math_cosh_overflow x :
  (Py.cosh_max < Rabs x)%R -> Py.math_cosh (Fin x) = Raise OverflowError.
Proof. intros H. unfold Py.math_cosh. by rewrite Rltb_true by lra. Qed.

Lemma mlift_Ok {A} (a : A) : mlift (Ok a) = mret a.
Proof. reflexivity. Qed.

Lemma cosh_max_pos : (700 < Py.cosh_max)%R.
Proof. unfold Py.cosh_max. lra. Qed.

Lemma cosh_sinh_ratio_zero : cosh_sinh_ratio 0 = mraise ZeroDivisionError.
Proof.
  pose proof cosh_max_pos as Hmax.
  unfold cosh_sinh_ratio, Num.zero.
  rewrite math_cosh_Fin, math_sinh_Fin by (rewrite Rabs_R0; lra).
  rewrite !mlift_Ok, !mbind_ret_l.
  unfold mlift, mraise, Py.div, Num.mul, Num.sub, Num.add, Num.neg, Num.one.
  rewrite sinh_0. by rewrite Reqb_true.
Qed.

Lemma sinh_pos e : (0 < e)%R -> (0 < sinh e)%R.
Proof. intros H. rewrite <- sinh_0. by apply sinh_lt. Qed.

Lemma cosh_sinh_ratio_pos e :
  (0 < e <= Py.cosh_max)%R ->
  cosh_sinh_ratio (Fin e) = mret (Fin (e * (cosh e - 1) / sinh e)%R).
Proof.
  intros H. pose proof (sinh_pos e (proj1 H)).
  unfold cosh_sinh_ratio.
  rewrite math_cosh_Fin, math_sinh_Fin by (rewrite Rabs_pos_eq; lra).
  rewrite !mlift_Ok, !mbind_ret_l.
  unfold mlift, mret, Py.div, Num.mul, Num.sub, Num.add, Num.neg, Num.one.
  rewrite Reqb_false by lra. reflexivity.
Qed.

Lemma cosh_sinh_ratio_overflow e :
  (Py.cosh_max < e)%R -> cosh_sinh_ratio (Fin e) = mraise OverflowError.
Proof.
  intros H. pose proof cosh_max_pos. unfold cosh_sinh_ratio.
  rewrite math_cosh_overflow by (rewrite Rabs_pos_eq; lra). reflexivity.
Qed.

(** The branches of the evaluator of [puredp_to_rdp] taken at order 1 and
    at the orders strictly between 0 and 1. *)
Lemma puredp_rdp_at_one eps rdp :
  puredp_to_rdp eps = Ok rdp -> rdp 1 = cosh_sinh_ratio eps.
Proof.
  unfold puredp_to_rdp. destruct (negb (eps >=? 0)); [discriminate|].
  intros [= <-]. cbv beta. settle_cmp.
  unfold massert. by rewrite mbind_ret_l.
Qed.

Lemma puredp_rdp_below_one eps rdp a :
  puredp_to_rdp eps = Ok rdp -> (0 < a < 1)%R ->
  rdp (Fin a) =
    mbind (mlift (Py.div (Fin a * eps * eps) 2)) (fun q =>
    mbind (cosh_sinh_ratio eps) (fun r => mret (Py.min q r))).
Proof.
  unfold puredp_to_rdp. destruct (negb (eps >=? 0)); [discriminate|].
  intros [= <-] Ha. cbv beta. settle_cmp.
  unfold massert. rewrite mbind_ret_l. reflexivity.
Qed.

(** C9.  With eps = 0, which the precondition [eps >= 0] of
    [puredp_to_rdp] lets through, the evaluator raises ZeroDivisionError at
    order 1 and at every order strictly between 0 and 1, because it
    divides by sinh 0 = 0.  With 0 < eps <= 700, where neither the
    hyperbolic functions nor the product eps * (cosh eps - 1) overflow,
    it returns a finite value at these orders.  With eps above
    710.4758600739439 it raises OverflowError there, from [math.cosh]. *)
Theorem puredp_to_rdp_eps_zero_not_total :
  (exists rdp, puredp_to_rdp 0 = Ok rdp
     /\ rdp 1 = mraise ZeroDivisionError
     /\ forall a, (0 < a < 1)%R -> rdp (Fin a) = mraise ZeroDivisionError)
  /\ (forall e, (0 < e <= 700)%R ->
      exists rdp, puredp_to_rdp (Fin e) = Ok rdp
        /\ rdp 1 = mret (Fin (e * (cosh e - 1) / sinh e)%R)
        /\ forall a, (0 < a < 1)%R -> exists v, rdp (Fin a) = mret (Fin v))
  /\ (forall e, (Py.cosh_max < e)%R ->
      exists rdp, puredp_to_rdp (Fin e) = Ok rdp
        /\ rdp 1 = mraise OverflowError
        /\ forall a, (0 < a < 1)%R -> rdp (Fin a) = mraise OverflowError).
Proof.
  pose proof cosh_max_pos as Hmax.
  split; [|split].
  - assert (H0 : (0 >=? 0) = true) by (apply geb_zero_Fin; lra).
    destruct (puredp_to_rdp 0) as [rdp|] eqn:E.
    2:{ unfold puredp_to_rdp in E. rewrite H0 in E. discriminate. }
    exists rdp. split; [reflexivity|]. split.
    + rewrite (puredp_rdp_at_one _ _ E). apply cosh_sinh_ratio_zero.
    + intros a Ha. rewrite (puredp_rdp_below_one _ _ _ E Ha).
      rewrite cosh_sinh_ratio_zero.
      unfold Py.div, Num.mul, Num.zero, Num.two, mlift. simpl.
      rewrite Reqb_false by lra. reflexivity.
  - intros e He.
    assert (H0 : (Fin e >=? 0) = true) by (apply geb_zero_Fin; lra).
    destruct (puredp_to_rdp (Fin e)) as [rdp|] eqn:E.
    2:{ unfold puredp_to_rdp in E. rewrite H0 in E. discriminate. }
    exists rdp. split; [reflexivity|]. split.
    + rewrite (puredp_rdp_at_one _ _ E). apply cosh_sinh_ratio_pos. lra.
    + intros a Ha. rewrite (puredp_rdp_below_one _ _ _ E Ha).
      rewrite cosh_sinh_ratio_pos by lra.
      unfold Py.div, Num.mul, Num.two, mlift. simpl.
      rewrite Reqb_false by lra. unfold mbind, mret, Py.min, Num.ltb. simpl.
      destruct (Rltb _ _); eexists; reflexivity.
  - intros e He.
    assert (H0 : (Fin e >=? 0) = true) by (apply geb_zero_Fin; lra).
    destruct (puredp_to_rdp (Fin e)) as [rdp|] eqn:E.
    2:{ unfold puredp_to_rdp in E. rewrite H0 in E. discriminate. }
    exists rdp. split; [reflexivity|]. split.
    + rewrite (puredp_rdp_at_one _ _ E). by apply cosh_sinh_ratio_overflow.
    + intros a Ha. rewrite (puredp_rdp_below_one _ _ _ E Ha).
      rewrite cosh_sinh_ratio_overflow by done.
      unfold Py.div, Num.mul, Num.two, mlift. simpl.
      rewrite Reqb_false by lra. reflexivity.
Qed.

(** What [rdp_to_approxdp] does once the test [delta == 0] has failed. *)
Lemma rdp_to_approxdp_nonzero rdp alpha_max bbghs delta :
  (delta =? 0) = false ->
  rdp_to_approxdp rdp alpha_max bbghs delta =
    mbind (if (delta <? 0) || (delta >? 1)
           then mprint delta_error_message else mret tt) (fun _ =>
    mbind (minimize_scalar (approxdp_objective rdp bbghs delta)
             (approxdp_args alpha_max)) (fun results =>
    if success results then mret (fun_ results) else mret Np.inf)).
Proof. intros H. unfold rdp_to_approxdp. rewrite H. reflexivity. Qed.

(** C4.  The evaluator of [rdp_to_approxdp] queried at delta = 0 is the RDP
    curve queried at the infinite order; and at any other delta, when the
    optimizer returns a result that reports failure, the evaluator returns
    plus infinity and raises nothing. *)
Theorem rdp_to_approxdp_zero_delta_and_failure (rdp : evaluator)
    (alpha_max : num) (bbghs : bool) :
  rdp_to_approxdp rdp alpha_max bbghs 0 = rdp Np.inf
  /\ forall delta out results,
       (delta =? 0) = false ->
       minimize_scalar (approxdp_objective rdp bbghs delta)
         (approxdp_args alpha_max) = (out, Ok results) ->
       success results = false ->
       outcome (rdp_to_approxdp rdp alpha_max bbghs delta) = Ok Np.inf.
Proof.
  split; [apply rdp_to_approxdp_at_zero|].
  intros delta out results Hd Hmin Hfail.
  rewrite rdp_to_approxdp_nonzero by done. rewrite Hmin.
  destruct ((delta <? 0) || (delta >? 1)); unfold mbind, mprint, mret; simpl;
    rewrite Hfail; reflexivity.
Qed.

(** C6 (the converter prints and goes on).  A delta below 0 or above 1
    handed to the evaluator of [rdp_to_approxdp] is not rejected: the
    evaluator prints its error line and then runs the optimizer with that
    delta, returning what the optimizer found.  The fDP evaluator of
    [single_rdp_to_fdp], in contrast, raises AssertionError for an fpr
    outside [0, 1]. *)
Theorem rdp_to_approxdp_out_of_domain_proceeds (rdp : evaluator)
    (alpha_max : num) (bbghs : bool) (d : R) out results :
  (d < 0 \/ 1 < d)%R ->
  minimize_scalar (approxdp_objective rdp bbghs (Fin d))
    (approxdp_args alpha_max) = (out, Ok results) ->
  rdp_to_approxdp rdp alpha_max bbghs (Fin d) =
    (delta_error_message :: out,
     Ok (if success results then fun_ results else Np.inf))
  /\ forall alpha rho fdp, single_rdp_to_fdp alpha rho = Ok fdp ->
       fdp (Fin d) = mraise AssertionError.
Proof.
  intros Hd Hmin. split.
  - rewrite rdp_to_approxdp_nonzero.
    2:{ unfold Num.eqb, Num.zero. decide_reals; reflexivity. }
    replace ((Fin d <? 0) || (Fin d >? 1)) with true.
    2:{ unfold Num.gtb, Num.ltb, Num.zero, Num.one.
        destruct Hd; decide_reals; reflexivity. }
    rewrite Hmin. unfold mbind, mprint, mret. simpl.
    destruct (success results); rewrite app_nil_r; reflexivity.
  - intros alpha rho fdp. unfold single_rdp_to_fdp.
    destruct (negb (alpha >=? one_half)); [discriminate|].
    intros [= <-]. cbv beta.
    replace ((0 <=? Fin d) && (Fin d <=? 1)) with false; [reflexivity|].
    unfold Num.leb, Num.ltb, Num.eqb, Num.zero, Num.one.
    destruct Hd; decide_reals; reflexivity.
Qed.

(** ** transformer_zoo.py: Composition *)

Lemma fold_left_add_Fin (l : list R) (a : R) :
  fold_left Num.add (map Fin l) (Fin a) = Fin (a + Rsum l)%R.
Proof.
  revert a. induction l as [|x l IH]; intros a; simpl.
  - f_equal. lra.
  - rewrite IH. f_equal. lra.
Qed.

Lemma Py_sum_Fin (l : list R) : Py.sum (map Fin l) = Fin (Rsum l).
Proof. unfold Py.sum, Num.zero. rewrite fold_left_add_Fin. f_equal. lra. Qed.

Lemma update_params_loop_ok p ml h :
  exists h', update_params_loop p ml h = (Ok tt, h').
Proof.
  revert h. induction ml as [|m ml IH]; intros h; simpl.
  - eexists. reflexivity.
  - unfold tbind, read_dict, dict_update. simpl. apply IH.
Qed.

Lemma update_params_ok ml h :
  exists p h', update_params ml h = (Ok p, h').
Proof.
  unfold update_params, tbind, new_dict, tret.
  destruct (update_params_loop_ok (fresh (dom h)) ml
              (<[fresh (dom h) := ∅]> h)) as [h' ->].
  eauto.
Qed.

(** What a successful [compose] returns, field by field: it succeeds as
    soon as there is one (mechanism, coefficient) pair. *)
Lemma Composition_compose_fields ml cl r b f h :
  zip ml cl <> [] ->
  exists newmech h',
    Composition_compose ml cl r b f h = (Ok newmech, h')
    /\ eps_pureDP newmech =
         Py.sum (map (fun mc => snd mc * eps_pureDP (fst mc)) (zip ml cl))
    /\ RenyiDP newmech = Some (Composition_newrdp ml cl)
    /\ approxDP newmech =
         Some (if f then fdp_based_rdp_to_approxdp (Composition_newrdp ml cl)
               else rdp_to_approxdp (Composition_newrdp ml cl) Np.inf b)
    /\ name newmech = update_name ml cl.
Proof.
  intros Hne. unfold Composition_compose, tbind, Mechanism_init, new_dict,
    tret, tlift, propagate_updates. simpl.
  destruct (zip ml cl) as [|mc l] eqn:Ez; [done|]. simpl.
  match goal with |- context [update_params ml ?h0] =>
    destruct (update_params_ok ml h0) as (p & h' & ->) end.
  do 2 eexists. split; [reflexivity|]. simpl. auto.
Qed.

(** With no mechanism at all the call raises: there is no maximum of an
    empty list of [delta0]. *)
Lemma Composition_compose_empty cl r b f h :
  fst (Composition_compose [] cl r b f h) = Raise ValueError.
Proof. reflexivity. Qed.

Lemma zip_nonempty {A B} (l : list A) (k : list B) :
  l <> [] -> length l = length k -> zip l k <> [].
Proof. destruct l, k; simpl; intros; congruence. Qed.

(** With finite epsilons and coefficients the epsilon of the composition
    is the weighted sum, as a real number. *)
Lemma weighted_eps_sum ml (cs es : list R) :
  length ml = length cs ->
  map eps_pureDP ml = map Fin es ->
  Py.sum (map (fun mc => snd mc * eps_pureDP (fst mc)) (zip ml (map Fin cs)))
  = Fin (weighted_sum cs es).
Proof.
  intros Hlen Heps. unfold weighted_sum. rewrite <- Py_sum_Fin. f_equal.
  revert cs es Hlen Heps.
  induction ml as [|m ml IH]; intros [|c cs] [|e es] Hlen Heps;
    simpl in *; try discriminate; try reflexivity.
  injection Hlen as Hlen. injection Heps as He Heps.
  rewrite He. simpl. f_equal. by apply IH.
Qed.

(** Reading the store. *)
Lemma contents_after_init l h :
  contents l (<[fresh (dom h) := ∅]> h) = contents l h.
Proof.
  unfold contents.
  destruct (decide (l = fresh (dom h))) as [->|Hne].
  - rewrite lookup_insert_eq.
    assert (Hnone : h !! fresh (dom h) = None).
    { apply not_elem_of_dom. apply is_fresh. }
    by rewrite Hnone.
  - by rewrite lookup_insert_ne.
Qed.

Lemma contents_insert l d h : contents l (<[l := d]> h) = d.
Proof. unfold contents. by rewrite lookup_insert_eq. Qed.

(** The constructed pure-DP mechanism. *)
Lemma PureDP_Mechanism_fields e nm h :
  (0 <= e)%R ->
  exists mech h' rdp,
    PureDP_Mechanism (Fin e) nm h = (Ok mech, h')
    /\ eps_pureDP mech = Fin e
    /\ puredp_to_rdp (Fin e) = Ok rdp
    /\ RenyiDP mech = Some rdp.
Proof.
  intros He. pose proof (geb_zero_Fin e He) as Hge.
  unfold PureDP_Mechanism, tbind, Mechanism_init, new_dict, tret, tlift,
    propagate_updates, rbind. simpl.
  unfold puredp_to_rdp. rewrite Hge. simpl.
  do 3 eexists. split; [reflexivity|]. simpl. auto.
Qed.

(** Its [params] are a dictionary of its own with the one entry [eps]. *)
Lemma PureDP_Mechanism_params e nm h :
  (0 <= e)%R ->
  exists mech h',
    PureDP_Mechanism (Fin e) nm h = (Ok mech, h')
    /\ replace_one mech = false
    /\ name mech = nm
    /\ contents (params mech) h' = {[ "eps" := Fin e ]}.
Proof.
  intros He. pose proof (geb_zero_Fin e He) as Hge.
  unfold PureDP_Mechanism, tbind, Mechanism_init, new_dict, tret, tlift,
    propagate_updates, rbind. cbn -[contents].
  unfold puredp_to_rdp. rewrite Hge. cbn -[contents].
  do 2 eexists. split; [reflexivity|]. cbn -[contents].
  split; [reflexivity|]. split; [reflexivity|]. apply contents_insert.
Qed.

Lemma newrdp_singleton mech c x :
  Composition_newrdp [mech] [c] x =
    mbind (call_RenyiDP mech x) (fun r => mret (Py.sum [c * r])).
Proof.
  unfold Composition_newrdp. simpl.
  destruct (call_RenyiDP mech x) as [out [v|e]]; unfold mbind, mret; simpl;
    rewrite ?app_nil_r; reflexivity.
Qed.

(** On doubles, adding a number to the 0.0 that [sum] starts from gives
    the number back, the sign of a negative zero apart. *)
Lemma float_zero_add (x : float) :
  Prim2SF x <> S754_zero true -> (0 + x)%float = x.
Proof.
  intros H. apply Prim2SF_inj. rewrite add_spec.
  change (Prim2SF 0%float) with (S754_zero false).
  unfold SF64add, SFadd.
  destruct (Prim2SF x) as [s | s | | s m e]; try reflexivity.
  destruct s; [congruence | reflexivity].
Qed.

(** C1 (as amended).  [Composition.compose] on a non-empty zipped list
    returns a mechanism whose [eps_pureDP] is the builtin sum of the
    products c_i * e_i, added from left to right starting from 0.  In exact
    arithmetic that is the weighted sum of the epsilons; on doubles it is
    that sum with each addition rounded.  For one mechanism with
    coefficient k the double computed is exactly the product k * e.  The
    mechanism [PureDP_Mechanism(1.0)] composed with coefficient 10 has
    [eps_pureDP] exactly 10, on doubles too (as one entry with
    coefficient 10 and as ten entries with coefficient 1), and its
    [approxDP(0)] returns 10. *)
Theorem compose_pure_dp_epsilon :
  (forall ml cl r b f h,
     zip ml cl <> [] ->
     exists newmech h',
       Composition_compose ml cl r b f h = (Ok newmech, h')
       /\ eps_pureDP newmech
          = Py.sum (map (fun mc => snd mc * eps_pureDP (fst mc)) (zip ml cl)))
  /\ (forall ml (cs es : list R),
        length ml = length cs -> map eps_pureDP ml = map Fin es ->
        Py.sum (map (fun mc => snd mc * eps_pureDP (fst mc))
                    (zip ml (map Fin cs)))
        = Fin (weighted_sum cs es))
  /\ (forall e k : float,
        Prim2SF (k * e)%float <> S754_zero true ->
        compose_eps_pureDP [e] [k] = (k * e)%float)
  /\ compose_eps_pureDP [1%float] [10%float] = 10%float
  /\ compose_eps_pureDP (replicate 10 1%float) (replicate 10 1%float)
     = 10%float
  /\ (forall r b h,
        exists mech h1 newmech h2,
          PureDP_Mechanism (Fin 1) "PureDP" h = (Ok mech, h1)
          /\ Composition_compose [mech] [Fin 10] r b false h1 = (Ok newmech, h2)
          /\ eps_pureDP newmech = Fin 10
          /\ call_approxDP newmech 0 = mret (Fin 10)).
Proof.
  split; [|split; [|split; [|split; [|split]]]].
  - intros ml cl r b f h Hne.
    destruct (Composition_compose_fields ml cl r b f h Hne)
      as (newmech & h' & Hc & He & _).
    exists newmech, h'. split; [exact Hc | exact He].
  - intros ml cs es Hlen Heps. by apply weighted_eps_sum.
  - intros e k Hk. unfold compose_eps_pureDP, float_sum.
    cbn [zip zip_with map fold_left fst snd]. by apply float_zero_add.
  - vm_compute. reflexivity.
  - vm_compute. reflexivity.
  - intros r b h.
    destruct (PureDP_Mechanism_fields 1 "PureDP" h) as
      (mech & h1 & rdp & Hm & He & Hrdp & HR); [lra|].
    destruct (Composition_compose_fields [mech] [Fin 10] r b false h1)
      as (newmech & h2 & Hc & Heps & _ & Ha & _); [done|].
    exists mech, h1, newmech, h2. split; [done|]. split; [done|]. split.
    + rewrite Heps. simpl. rewrite He. unfold Py.sum, Num.zero. simpl.
      f_equal. lra.
    + unfold call_approxDP. rewrite Ha. simpl.
      rewrite rdp_to_approxdp_at_zero, newrdp_singleton.
      unfold call_RenyiDP. rewrite HR. simpl.
      rewrite (puredp_to_rdp_at_inf _ _ Hrdp), mbind_ret_l.
      unfold Py.sum, Num.zero, mret. simpl. do 3 f_equal. lra.
Qed.

(** Adding [1 * a] and [1 * b] to the integer 0 gives [a + b], also for
    infinite values and NaN. *)
Lemma one_mul (a : num) : 1 * a = a.
Proof.
  destruct a; unfold Num.mul, Num.one, Num.scale_inf; simpl;
    rewrite ?Rltb_true by lra; try reflexivity.
  f_equal. lra.
Qed.

Lemma zero_add (a : num) : 0 + a = a.
Proof. destruct a; unfold Num.zero; simpl; try reflexivity. f_equal. lra. Qed.

Lemma Py_sum_pair (a b : num) : Py.sum [1 * a; 1 * b] = a + b.
Proof. unfold Py.sum. cbn [fold_left]. by rewrite !one_mul, zero_add. Qed.

Lemma Py_sum_single (a : num) : Py.sum [1 * a] = a.
Proof. unfold Py.sum. cbn [fold_left]. by rewrite one_mul, zero_add. Qed.

Lemma newrdp_pair A B c1 c2 x :
  Composition_newrdp [A; B] [c1; c2] x =
    mbind (call_RenyiDP A x) (fun a =>
    mbind (call_RenyiDP B x) (fun b => mret (Py.sum [c1 * a; c2 * b]))).
Proof.
  unfold Composition_newrdp. simpl.
  destruct (call_RenyiDP A x) as [outA [a|e]]; unfold mbind, mret; simpl;
    [|reflexivity].
  destruct (call_RenyiDP B x) as [outB [b|e]]; simpl;
    rewrite ?app_nil_r; reflexivity.
Qed.

(** When every composed curve returns a finite value at the order and
    prints nothing, the composed curve returns the weighted sum. *)
Lemma newrdp_weighted ml (cs rhos : list R) x :
  length ml = length cs ->
  Forall2 (fun m rho => call_RenyiDP m x = mret (Fin rho)) ml rhos ->
  Composition_newrdp ml (map Fin cs) x = mret (Fin (weighted_sum cs rhos)).
Proof.
  intros Hlen HF. unfold Composition_newrdp, weighted_sum.
  assert (Hm : mmap (fun mc => mbind (call_RenyiDP (fst mc) x)
                                 (fun r => mret (snd mc * r)))
                 (zip ml (map Fin cs))
               = mret (map Fin (zip_with Rmult cs rhos))).
  { revert cs Hlen. induction HF as [|m rho ml rhos Hm HF IH];
      intros [|c cs] Hlen; simpl in *; try discriminate; try reflexivity.
    injection Hlen as Hlen. rewrite Hm, mbind_ret_l, (IH cs Hlen).
    reflexivity. }
  rewrite Hm, mbind_ret_l, Py_sum_Fin. reflexivity.
Qed.

(** C2.  The mechanism returned by [compose([A,B],[1,1])] has, at every
    order, the RDP value [A.RenyiDP(alpha) + B.RenyiDP(alpha)] (A is
    queried first, then B; what they print is printed, what they raise is
    raised).  [compose([mech],[1])] has the RDP curve of [mech].  In
    general, where the composed curves return finite values rho_i, the
    composed curve returns the sum of the c_i * rho_i. *)
Theorem compose_rdp_weighted_sum :
  (forall A B r b f h,
     exists newmech h',
       Composition_compose [A; B] [1; 1] r b f h = (Ok newmech, h')
       /\ forall alpha,
            call_RenyiDP newmech alpha =
              mbind (call_RenyiDP A alpha) (fun a =>
              mbind (call_RenyiDP B alpha) (fun b => mret (a + b))))
  /\ (forall mech r b f h,
        exists newmech h',
          Composition_compose [mech] [1] r b f h = (Ok newmech, h')
          /\ forall alpha, call_RenyiDP newmech alpha = call_RenyiDP mech alpha)
  /\ (forall ml (cs rhos : list R) alpha r b f h,
        ml <> [] -> length ml = length cs ->
        Forall2 (fun m rho => call_RenyiDP m alpha = mret (Fin rho)) ml rhos ->
        exists newmech h',
          Composition_compose ml (map Fin cs) r b f h = (Ok newmech, h')
          /\ call_RenyiDP newmech alpha = mret (Fin (weighted_sum cs rhos))).
Proof.
  split; [|split].
  - intros A B r b f h.
    destruct (Composition_compose_fields [A; B] [1; 1] r b f h)
      as (newmech & h' & Hc & _ & HR & _); [done|].
    exists newmech, h'. split; [done|]. intros alpha.
    unfold call_RenyiDP at 1. rewrite HR. simpl. rewrite newrdp_pair.
    f_equal. extensionality a. f_equal. extensionality b0.
    by rewrite Py_sum_pair.
  - intros mech r b f h.
    destruct (Composition_compose_fields [mech] [1] r b f h)
      as (newmech & h' & Hc & _ & HR & _); [done|].
    exists newmech, h'. split; [done|]. intros alpha.
    unfold call_RenyiDP at 1. rewrite HR. simpl. rewrite newrdp_singleton.
    rewrite <- (mbind_ret_r (call_RenyiDP mech alpha)) at 2.
    f_equal. extensionality a. by rewrite Py_sum_single.
  - intros ml cs rhos alpha r b f h Hne Hlen HF.
    destruct (Composition_compose_fields ml (map Fin cs) r b f h)
      as (newmech & h' & Hc & _ & HR & _).
    { apply zip_nonempty; [done|]. by rewrite length_map. }
    exists newmech, h'. split; [done|].
    unfold call_RenyiDP at 1. rewrite HR. simpl. by apply newrdp_weighted.
Qed.

(** ** transformer_zoo.py: ComposeAFA *)

Lemma directions_fold ml e u l :
  fold_left direction_step ml (e, u, l) =
    (e && forallb exactPhi ml, u || existsb only_upper ml,
     l || existsb only_lower ml).
Proof.
  revert e u l. induction ml as [|m ml IH]; intros e u l; simpl.
  - by rewrite andb_true_r, !orb_false_r.
  - unfold only_upper, only_lower.
    destruct (exactPhi m), (upperPhi m); simpl; rewrite IH; simpl;
      rewrite ?andb_false_r, ?orb_true_r, ?orb_assoc; reflexivity.
Qed.

Lemma directions_spec ml :
  directions ml =
    (forallb exactPhi ml, existsb only_upper ml, existsb only_lower ml).
Proof. unfold directions. by rewrite directions_fold. Qed.

(** The precondition check of [ComposeAFA.compose] fails exactly when both
    directions occur. *)
Lemma ComposeAFA_rejects ml cl h :
  existsb only_lower ml && existsb only_upper ml = true ->
  ComposeAFA_compose ml cl h = (Raise AssertionError, after_init h).
Proof.
  intros H. unfold ComposeAFA_compose, tbind, Mechanism_init, new_dict, tret.
  rewrite directions_spec. simpl. rewrite H. reflexivity.
Qed.

Lemma ComposeAFA_accepts ml cl h :
  existsb only_lower ml && existsb only_upper ml = false ->
  exists newmech h',
    ComposeAFA_compose ml cl h = (Ok newmech, h')
    /\ cdf newmech = Some (AFA_cdf_pair ml cl)
    /\ exactPhi newmech = forallb exactPhi ml
    /\ (existsb only_lower ml = false ->
        phi_q_upper newmech = Some (fun x => new_phi_q_upper ml cl x)).
Proof.
  intros H. unfold ComposeAFA_compose, tbind, Mechanism_init, new_dict, tret.
  rewrite directions_spec. simpl. rewrite H. simpl.
  unfold AFA_cdf_pair.
  destruct (forallb exactPhi ml); [|destruct (existsb only_lower ml)];
    simpl; unfold tlift;
    match goal with |- context [update_params ml ?h0] =>
      destruct (update_params_ok ml h0) as (p & h' & ->) end;
    do 2 eexists; (split; [reflexivity|]); simpl; auto; try done.
Qed.

Lemma existsb_only_lower ml :
  existsb only_lower ml = true <->
  exists m, In m ml /\ exactPhi m = false /\ upperPhi m = false.
Proof.
  rewrite existsb_exists. unfold only_lower.
  split; intros (m & Hin & Hm); exists m; (split; [done|]);
    destruct (exactPhi m), (upperPhi m); simpl in *; intuition congruence.
Qed.

Lemma existsb_only_upper ml :
  existsb only_upper ml = true <->
  exists m, In m ml /\ exactPhi m = false /\ upperPhi m = true.
Proof.
  rewrite existsb_exists. unfold only_upper.
  split; intros (m & Hin & Hm); exists m; (split; [done|]);
    destruct (exactPhi m), (upperPhi m); simpl in *; intuition congruence.
Qed.

Lemma mixes_directions_bool ml :
  mixes_directions ml <->
  existsb only_lower ml && existsb only_upper ml = true.
Proof.
  unfold mixes_directions.
  rewrite andb_true_iff, existsb_only_lower, existsb_only_upper. reflexivity.
Qed.



Lemma existsb_only_upper_set_q qs ml :
  length qs = length ml ->
  existsb only_upper (zip_with set_phi_q_upper qs ml) = existsb only_upper ml.
Proof.
  revert qs. induction ml as [|m ml IH]; intros [|q qs] Hlen;
    simpl in *; try discriminate; try reflexivity.
  injection Hlen as Hlen. by rewrite IH.
Qed.



(** ** transformer_zoo.py: AmplificationBySampling *)

(** *** Strings: the keys tried by the bookkeeping loop are distinct *)

Lemma string_app_cons (a : Ascii.ascii) (s t : string) :
  String a s +:+ t = String a (s +:+ t).
Proof. reflexivity. Qed.

Lemma string_app_nil_r (s : string) : s +:+ "" = s.
Proof.
  induction s as [|a s IH]; [reflexivity|].
  by rewrite string_app_cons, IH.
Qed.

Lemma string_app_assoc (s1 s2 s3 : string) :
  (s1 +:+ s2) +:+ s3 = s1 +:+ (s2 +:+ s3).
Proof.
  induction s1 as [|a s1 IH]; [reflexivity|].
  by rewrite !string_app_cons, IH.
Qed.

Lemma string_length_app (s1 s2 : string) :
  String.length (s1 +:+ s2) = (String.length s1 + String.length s2)%nat.
Proof.
  induction s1 as [|a s1 IH]; [reflexivity|].
  rewrite string_app_cons. cbn [String.length]. by rewrite IH.
Qed.

Lemma string_app_inv_tail (s1 s2 t : string) :
  s1 +:+ t = s2 +:+ t -> s1 = s2.
Proof.
  revert s2. induction s1 as [|a s1 IH]; intros [|b s2] H.
  - reflexivity.
  - apply (f_equal String.length) in H.
    rewrite !string_length_app in H. cbn [String.length] in H. lia.
  - apply (f_equal String.length) in H.
    rewrite !string_length_app in H. cbn [String.length] in H. lia.
  - rewrite !string_app_cons in H. injection H as -> H. f_equal. by apply IH.
Qed.

Lemma pretty_N_go_length (x : N) (s : string) :
  String.length s <= String.length (pretty_N_go x s).
Proof.
  revert s. induction (N.lt_wf_0 x) as [x _ IH]; intros s.
  assert (x = 0 \/ 0 < x)%N as [-> | Hx] by lia.
  - by rewrite pretty_N_go_0.
  - rewrite pretty_N_go_step by done.
    etrans; [|apply IH; by apply N.div_lt]. simpl. lia.
Qed.

Lemma pretty_nat_nonempty (n : nat) : pretty n <> "".
Proof.
  unfold pretty, pretty_nat, pretty, pretty_N.
  case_decide as Hn; [done|].
  rewrite pretty_N_go_step by lia.
  intros H. apply (f_equal String.length) in H.
  pose proof (pretty_N_go_length (N.of_nat n `div` 10)
                (String (pretty_N_char (N.of_nat n `mod` 10)) "")) as Hl.
  rewrite H in Hl. simpl in Hl. lia.
Qed.

Lemma amplify_newname_inj self : Inj (=) (=) (amplify_newname self).
Proof.
  intros [|n] [|m] H; unfold amplify_newname in H.
  - reflexivity.
  - exfalso. rewrite <- (string_app_nil_r (self_name self)) in H at 1.
    apply String.app_inj in H. by apply (pretty_nat_nonempty (S m)).
  - exfalso. symmetry in H.
    rewrite <- (string_app_nil_r (self_name self)) in H at 1.
    apply String.app_inj in H. by apply (pretty_nat_nonempty (S n)).
  - apply String.app_inj in H. by apply pretty_nat_inj in H.
Qed.

Lemma amplify_key_inj self prob : Inj (=) (=) (amplify_key self prob).
Proof.
  intros n m H. unfold amplify_key in H.
  rewrite <- !string_app_assoc in H. apply string_app_inv_tail in H.
  apply string_app_inv_tail in H. by apply amplify_newname_inj in H.
Qed.

(** *** The bookkeeping loop ends *)

Lemma amplify_loop_cases fuel self prob d num :
  (exists n, num <= n
             /\ amplify_loop fuel self prob d num = Ok (amplify_newname self n)
             /\ d !! amplify_key self prob n = None
             /\ forall i, num <= i < n ->
                  is_Some (d !! amplify_key self prob i))
  \/ (amplify_loop fuel self prob d num = Raise OutOfFuel
      /\ forall i, i < fuel ->
           is_Some (d !! amplify_key self prob (num + i)%nat)).
Proof.
  revert num. induction fuel as [|fuel IH]; intros num; simpl.
  - right. split; [reflexivity|]. intros i Hi. lia.
  - destruct (d !! amplify_key self prob num) as [v|] eqn:E.
    + destruct (IH (S num)) as [(n & Hn & Hok & Hnone & Hbelow) | [Hfail Hall]].
      * left. exists n. split; [lia|]. split; [done|]. split; [done|].
        intros i Hi. destruct (decide (i = num)) as [->|]; [by rewrite E|].
        apply Hbelow. lia.
      * right. split; [done|]. intros [|i] Hi.
        -- rewrite Nat.add_0_r, E. eauto.
        -- replace (num + S i)%nat with (S num + i)%nat by lia.
           apply Hall. lia.
    + left. exists num. split; [lia|]. split; [done|]. split; [done|].
      intros i Hi. lia.
Qed.

Lemma amplify_loop_ends self prob (d : gmap string num) :
  exists n, amplify_loop (S (size d)) self prob d 0
            = Ok (amplify_newname self n)
            /\ d !! amplify_key self prob n = None
            /\ forall i, i < n -> is_Some (d !! amplify_key self prob i).
Proof.
  destruct (amplify_loop_cases (S (size d)) self prob d 0)
    as [(n & _ & Hok & Hnone & Hbelow) | [_ Hall]].
  { exists n. split; [done|]. split; [done|]. intros i Hi. apply Hbelow. lia. }
  exfalso.
  set (keys := amplify_key self prob <$> seq 0 (S (size d))).
  assert (Hnd : NoDup keys).
  { apply NoDup_fmap_2; [apply amplify_key_inj | apply NoDup_seq]. }
  assert (Hsub : list_to_set keys ⊆ dom d).
  { intros k Hk. apply elem_of_list_to_set in Hk.
    apply list_elem_of_fmap in Hk as (i & -> & Hi).
    apply elem_of_seq in Hi. apply elem_of_dom.
    apply (Hall i). lia. }
  apply subseteq_size in Hsub.
  rewrite size_list_to_set in Hsub by done.
  rewrite size_dom in Hsub. unfold keys in Hsub.
  rewrite length_fmap, length_seq in Hsub. lia.
Qed.

(** *** What [amplify] returns and what it does to the store *)

(** [amplify] returns as soon as the neighbouring relation of the base
    mechanism fits the sampling scheme and the accountant delivers its
    oracle.  The result shares the [params] dictionary of its input, and
    that dictionary has gained an entry. *)
Lemma amplify_fields self mechanism prob flag h new_rdp :
  PoissonSampling self = negb (replace_one mechanism) ->
  anaRDPacct_evalRDP (PoissonSampling self) flag (call_RenyiDP mechanism) prob
    = Ok new_rdp ->
  exists n newmech h',
    AmplificationBySampling_amplify self mechanism prob flag h
      = (Ok newmech, h')
    /\ approxDP newmech = Some (new_approxDP mechanism prob)
    /\ RenyiDP newmech = Some new_rdp
    /\ params newmech = params mechanism
    /\ name newmech = amplify_newname self n +:+ ":" +:+ name mechanism
    /\ contents (params mechanism) h !! amplify_key self prob n = None
    /\ (forall i, i < n ->
          is_Some (contents (params mechanism) h !! amplify_key self prob i))
    /\ contents (params mechanism) h'
         = <[amplify_newname self n := prob]> (contents (params mechanism) h).
Proof.
  intros Hscheme Hacct.
  destruct (amplify_loop_ends self prob (contents (params mechanism) h))
    as (n & Hloop & Hnone & Hbelow).
  exists n.
  unfold AmplificationBySampling_amplify, tbind, Mechanism_init, new_dict,
    tret, tlift, tassert, traise, read_dict, dict_update, propagate_updates.
  cbn -[contents after_init amplify_loop].
  rewrite Hscheme in Hacct |- *.
  destruct (replace_one mechanism); simpl in Hacct;
    cbn -[contents after_init amplify_loop]; rewrite Hacct;
    cbn -[contents after_init amplify_loop];
    rewrite contents_after_init, Hloop;
    cbn -[contents after_init amplify_loop];
    do 2 eexists; (split; [reflexivity|]); cbn -[contents after_init];
    rewrite contents_insert, ?contents_after_init, insert_union_singleton_l;
    auto 10.
Qed.

Lemma exp_ge_one e : (0 <= e)%R -> (1 <= exp e)%R.
Proof.
  intros [He | <-]; [|rewrite exp_0; lra].
  pose proof (exp_increasing 0 e He) as H. rewrite exp_0 in H. lra.
Qed.

(** C7.  When [amplify] is applicable (the neighbouring relation of the
    mechanism fits the sampling scheme, the accountant delivers its
    oracle), it returns a mechanism whose [approxDP] is: with prob = 0, the
    constant 0 at every delta; with prob > 0, the closed form
    log(1 + prob * (exp(eps(delta / prob)) - 1)) in the base mechanism's
    approx-DP curve eps evaluated at delta / prob.  For prob <= 1 and
    delta <= prob (so that delta / prob is a probability): when the base
    curve returns e with 0 <= e <= 709.782712893384 the closed form is the
    finite number log(1 + prob * (e^e - 1)); when it returns a larger e,
    [np.exp] overflows and the closed form is plus infinity. *)
Theorem amplify_approxDP_closed_form (self : AmplificationBySampling)
    (mechanism : Mechanism) (prob : num) (flag : bool) (h : store)
    (new_rdp : evaluator) :
  PoissonSampling self = negb (replace_one mechanism) ->
  anaRDPacct_evalRDP (PoissonSampling self) flag (call_RenyiDP mechanism) prob
    = Ok new_rdp ->
  exists newmech h',
    AmplificationBySampling_amplify self mechanism prob flag h
      = (Ok newmech, h')
    /\ (prob = 0 -> forall delta, call_approxDP newmech delta = mret 0)
    /\ (forall p, prob = Fin p -> (0 < p)%R ->
          (forall delta,
             call_approxDP newmech delta =
               mbind (mlift (Py.div delta prob)) (fun q =>
               mbind (call_approxDP mechanism q) (fun e =>
               mret (Np.log (1 + prob * (Np.exp e - 1))))))
          /\ (forall d e,
                (p <= 1)%R -> (0 <= d <= p)%R ->
                call_approxDP mechanism (Fin (d / p)%R) = mret (Fin e) ->
                ((0 <= e <= Np.exp_max)%R ->
                 call_approxDP newmech (Fin d) =
                   mret (Fin (ln (1 + p * (exp e - 1)))%R))
                /\ ((Np.exp_max < e)%R ->
                    call_approxDP newmech (Fin d) = mret Np.inf))).
Proof.
  intros Hscheme Hacct.
  destruct (amplify_fields self mechanism prob flag h new_rdp Hscheme Hacct)
    as (n & newmech & h' & Hc & Ha & _).
  exists newmech, h'. split; [done|].
  assert (Hcall : call_approxDP newmech = new_approxDP mechanism prob).
  { unfold call_approxDP. by rewrite Ha. }
  rewrite Hcall. clear Hcall. split.
  - intros -> delta. unfold new_approxDP.
    replace (0 =? 0) with true; [reflexivity|]. by settle_cmp.
  - intros p -> Hp.
    assert (Hnz : (Fin p =? 0) = false).
    { by settle_cmp. }
    unfold new_approxDP. rewrite Hnz. split; [reflexivity|].
    intros d e Hp1 Hd He.
    unfold Py.div. rewrite Reqb_false by lra.
    unfold mlift. rewrite (mbind_ret_l (Fin (d / p)%R)), He, mbind_ret_l.
    split.
    + intros Hpos.
      pose proof (exp_ge_one e (proj1 Hpos)) as Hexp.
      unfold Np.exp. rewrite Rltb_false by lra.
      unfold Num.sub, Num.neg, Num.add, Num.mul, Num.one, Np.log.
      rewrite Rltb_true by nra.
      reflexivity.
    + intros Hbig.
      unfold Np.exp. rewrite Rltb_true by lra.
      unfold Num.sub, Num.neg, Num.add, Num.mul, Num.one, Num.scale_inf.
      rewrite Rltb_true by lra. reflexivity.
Qed.

(** C5 (the input is changed).  When [amplify] is applicable, the
    mechanism it returns holds the very [params] dictionary of its input,
    and the call has stored the sampling probability in that dictionary
    under the new name: the [params] of the input mechanism after the call
    are its [params] before the call with one entry added or overwritten.
    The name is the first one whose key [name_prob] is not in the
    dictionary. *)
Theorem amplify_mutates_input_params (self : AmplificationBySampling)
    (mechanism : Mechanism) (prob : num) (flag : bool) (h : store)
    (new_rdp : evaluator) :
  PoissonSampling self = negb (replace_one mechanism) ->
  anaRDPacct_evalRDP (PoissonSampling self) flag (call_RenyiDP mechanism) prob
    = Ok new_rdp ->
  exists n newmech h',
    AmplificationBySampling_amplify self mechanism prob flag h
      = (Ok newmech, h')
    /\ params newmech = params mechanism
    /\ contents (params mechanism) h !! amplify_key self prob n = None
    /\ (forall i, i < n ->
          is_Some (contents (params mechanism) h !! amplify_key self prob i))
    /\ contents (params mechanism) h'
         = <[amplify_newname self n := prob]> (contents (params mechanism) h)
    /\ contents (params mechanism) h' !! amplify_newname self n = Some prob.
Proof.
  intros Hscheme Hacct.
  destruct (amplify_fields self mechanism prob flag h new_rdp Hscheme Hacct)
    as (n & newmech & h' & Hc & _ & _ & Hp & _ & Hnone & Hbelow & Hstore).
  exists n, newmech, h'. repeat (split; [done|]).
  rewrite Hstore. apply lookup_insert_eq.
Qed.

(** The sibling transformer leaves every dictionary that existed before
    the call as it was: [Composition.update_params] fills a dictionary of
    its own. *)
Lemma update_params_loop_frame p ml h h' r l :
  update_params_loop p ml h = (r, h') -> l <> p -> h' !! l = h !! l.
Proof.
  revert h. induction ml as [|m ml IH]; intros h Hrun Hl; simpl in Hrun.
  - unfold tret in Hrun. by injection Hrun as _ <-.
  - unfold tbind, read_dict, dict_update in Hrun. simpl in Hrun.
    rewrite (IH _ Hrun Hl). by rewrite lookup_insert_ne.
Qed.

Lemma Composition_compose_frame ml cl r b f h res h' l :
  Composition_compose ml cl r b f h = (res, h') ->
  l ∈ dom h -> h' !! l = h !! l.
Proof.
  intros Hrun Hl.
  assert (Hne1 : l <> fresh (dom h)).
  { intros ->. by apply (is_fresh (dom h)). }
  unfold Composition_compose, tbind, Mechanism_init, new_dict, tret, tlift,
    propagate_updates in Hrun. cbn -[Py.max update_params] in Hrun.
  destruct (Py.max (map (fun mc => delta0 (fst mc)) (zip ml cl))) as [d0|e];
    cbn -[update_params] in Hrun.
  - unfold update_params, tbind, new_dict in Hrun.
    set (h1 := <[fresh (dom h) := ∅]> h) in *.
    set (p := fresh (dom h1)) in *.
    assert (Hne2 : l <> p).
    { intros Heq. apply (is_fresh (dom h1)). fold p. rewrite <- Heq.
      unfold h1. apply elem_of_dom. rewrite lookup_insert_ne by done.
      by apply elem_of_dom. }
    destruct (update_params_loop p ml (<[p := ∅]> h1)) as [[[]|e] h2] eqn:E;
      simpl in Hrun; injection Hrun as _ <-;
      rewrite (update_params_loop_frame _ _ _ _ _ _ E Hne2);
      rewrite lookup_insert_ne by done; unfold h1;
      by rewrite lookup_insert_ne.
  - injection Hrun as _ <-. by rewrite lookup_insert_ne.
Qed.

(** ** converter.py: closed-form trade-off functions *)

Lemma leb_Fin_true (a b : R) : (a <= b)%R -> (Fin a <=? Fin b) = true.
Proof.
  intros H. unfold Num.leb, Num.ltb, Num.eqb, Rltb, Reqb.
  destruct (Rlt_dec a b), (Req_dec_T a b); try reflexivity. lra.
Qed.

Lemma leb_Fin_false (a b : R) : (b < a)%R -> (Fin a <=? Fin b) = false.
Proof.
  intros H. unfold Num.leb, Num.ltb, Num.eqb, Rltb, Reqb.
  destruct (Rlt_dec a b), (Req_dec_T a b); try reflexivity; lra.
Qed.

(** Settle the non-strict comparisons of finite numbers first, then the
    rest. *)
Ltac settle_le :=
  unfold Num.geb, Num.gtb, Num.zero, Num.one, Num.two;
  repeat match goal with
  | |- context [Num.leb (Fin ?a) (Fin ?b)] =>
      first [rewrite (leb_Fin_true a b) by lra
            | rewrite (leb_Fin_false a b) by lra]
  end;
  settle_cmp.

Lemma maximum_Fin (a b : R) : Np.maximum (Fin a) (Fin b) = Fin (Rmax a b).
Proof.
  unfold Np.maximum, Num.is_nan, Num.ltb, Rltb, Rmax. simpl.
  destruct (Rlt_dec a b), (Rle_dec a b); try reflexivity; try lra.
  f_equal. lra.
Qed.

Lemma exp_neg_le_one e : (0 <= e)%R -> (0 < exp (- e) <= 1)%R.
Proof.
  intros He. split; [apply exp_pos|].
  destruct He as [He | <-]; [|rewrite Ropp_0, exp_0; lra].
  pose proof (exp_increasing (- e) 0 ltac:(lra)) as H.
  rewrite exp_0 in H. lra.
Qed.

Lemma exp_max_bounds : (709 < Np.exp_max < 710)%R.
Proof. unfold Np.exp_max. lra. Qed.

Lemma np_exp_Fin x : (x <= Np.exp_max)%R -> Np.exp (Fin x) = Fin (exp x).
Proof. intros H. unfold Np.exp. by rewrite Rltb_false by lra. Qed.

Lemma np_exp_overflow x : (Np.exp_max < x)%R -> Np.exp (Fin x) = PInf.
Proof. intros H. unfold Np.exp. by rewrite Rltb_true by lra. Qed.

Lemma puredp_to_fdp_Fin (e x : R) :
  (- Np.exp_max <= e <= Np.exp_max)%R ->
  puredp_to_fdp (Fin e) (Fin x) = mret (Fin (pure_tradeoff e x)).
Proof.
  intros He. unfold puredp_to_fdp. cbn [Num.neg].
  rewrite !np_exp_Fin by lra.
  unfold np_max, mlift, mret, pure_tradeoff.
  unfold Num.zero, Num.one, Num.sub.
  cbn [fold_left Num.neg Num.mul Num.add].
  rewrite !maximum_Fin. reflexivity.
Qed.

(** Once [np.exp(eps)] has overflowed: inf * 0 at rate 0, minus infinity
    in the middle entry at a positive rate. *)
Lemma puredp_to_fdp_overflow (e : R) :
  (Np.exp_max < e)%R ->
  puredp_to_fdp (Fin e) 0 = mret NaN
  /\ forall x, (0 < x)%R ->
       puredp_to_fdp (Fin e) (Fin x)
       = mret (Fin (Rmax 0 (exp (- e) * (1 - x)))).
Proof.
  intros He. pose proof exp_max_bounds as Hb. split.
  - unfold puredp_to_fdp, Num.zero. cbn [Num.neg].
    rewrite np_exp_overflow, np_exp_Fin by lra.
    unfold np_max, mlift, mret, Num.one, Num.sub.
    cbn [fold_left Num.neg Num.mul]. unfold Num.scale_inf.
    rewrite !(Rltb_false 0 0) by lra. reflexivity.
  - intros x Hx. unfold puredp_to_fdp. cbn [Num.neg].
    rewrite np_exp_overflow, np_exp_Fin by lra.
    unfold np_max, mlift, mret, Num.zero, Num.one, Num.sub.
    cbn [fold_left Num.neg Num.mul]. unfold Num.scale_inf.
    rewrite (Rltb_true 0 x) by lra. cbn [Num.neg Num.add].
    unfold Np.maximum at 2. cbn [Num.is_nan orb Num.ltb].
    rewrite maximum_Fin. reflexivity.
Qed.

Lemma pure_tradeoff_range e x :
  (0 <= e)%R -> (0 <= x <= 1)%R -> (0 <= pure_tradeoff e x <= 1 - x)%R.
Proof.
  intros He Hx. pose proof (exp_ge_one e He) as H1.
  pose proof (exp_neg_le_one e He) as H2. unfold pure_tradeoff. split.
  - eapply Rle_trans; [|apply Rmax_l]. apply Rmax_l.
  - repeat apply Rmax_lub; nra.
Qed.

(** X1.  For 0 <= eps <= 709.782712893384, where [np.exp(eps)] does not
    overflow, and a false-positive rate in [0, 1], [puredp_to_fdp] returns
    max(0, 1 - e^eps * fpr, e^-eps * (1 - fpr)), a number between 0 and
    1 - fpr; it is 1 at fpr = 0 and 0 at fpr = 1. *)
Theorem puredp_to_fdp_range (e x : R) :
  (0 <= e <= Np.exp_max)%R -> (0 <= x <= 1)%R ->
  puredp_to_fdp (Fin e) (Fin x) = mret (Fin (pure_tradeoff e x))
  /\ (0 <= pure_tradeoff e x <= 1 - x)%R
  /\ puredp_to_fdp (Fin e) (Fin 0) = mret (Fin 1)
  /\ puredp_to_fdp (Fin e) (Fin 1) = mret (Fin 0).
Proof.
  intros [He Hmax] Hx. pose proof exp_max_bounds as Hb.
  rewrite !puredp_to_fdp_Fin by lra.
  split; [reflexivity|].
  split; [by apply pure_tradeoff_range|].
  pose proof (pure_tradeoff_range e 0 He ltac:(lra)) as H0.
  pose proof (pure_tradeoff_range e 1 He ltac:(lra)) as H1.
  pose proof (exp_neg_le_one e He) as H2.
  split; do 2 f_equal.
  - apply Rle_antisym; [lra|]. unfold pure_tradeoff.
    eapply Rle_trans; [|apply Rmax_l]. eapply Rle_trans; [|apply Rmax_r]. lra.
  - lra.
Qed.

(** X2.  [puredp_to_fdp] checks nothing: it raises neither for a negative
    eps nor for a rate outside [0, 1], and its value does not increase
    when the rate increases.  Stated for |eps| <= 700 and rates between
    -1000 and 1000, where neither [np.exp] nor a product overflows. *)
Theorem puredp_to_fdp_monotone (e x y : R) :
  (-700 <= e <= 700)%R -> (-1000 <= x)%R -> (x <= y)%R -> (y <= 1000)%R ->
  puredp_to_fdp (Fin e) (Fin x) = mret (Fin (pure_tradeoff e x))
  /\ puredp_to_fdp (Fin e) (Fin y) = mret (Fin (pure_tradeoff e y))
  /\ (pure_tradeoff e y <= pure_tradeoff e x)%R.
Proof.
  intros He Hx Hxy Hy. pose proof exp_max_bounds as Hb.
  rewrite !puredp_to_fdp_Fin by lra.
  split; [reflexivity|]. split; [reflexivity|].
  pose proof (exp_pos e) as H1. pose proof (exp_pos (- e)) as H2.
  unfold pure_tradeoff. repeat apply Rmax_lub.
  - eapply Rle_trans; [|apply Rmax_l]. apply Rmax_l.
  - eapply Rle_trans; [|apply Rmax_l]. eapply Rle_trans; [|apply Rmax_r]. nra.
  - eapply Rle_trans; [|apply Rmax_r]. nra.
Qed.

Lemma approxdp_to_fdp_ok (e d : R) :
  (0 <= e <= Np.exp_max)%R -> (0 <= d <= 1)%R ->
  exists fdp, approxdp_to_fdp (Fin e) (Fin d) = Ok fdp
    /\ fdp 0 = mret (Fin (1 - d))
    /\ (forall x, (0 < x <= 1)%R ->
          fdp (Fin x) = mret (Fin (approx_tradeoff e d x)))
    /\ (forall x, (x < 0 \/ 1 < x)%R -> fdp (Fin x) = mraise AssertionError).
Proof.
  intros He Hd. unfold approxdp_to_fdp.
  replace ((Fin e >=? 0) && ((0 <=? Fin d) && (Fin d <=? 1))) with true.
  2:{ settle_le. reflexivity. }
  cbn [negb]. eexists. split; [reflexivity|]. cbv beta. split; [|split].
  - settle_le. unfold massert. rewrite mbind_ret_l. reflexivity.
  - intros x Hx. settle_le. unfold massert. rewrite mbind_ret_l.
    cbn [Num.neg]. rewrite !np_exp_Fin by lra.
    unfold np_max, mlift, mret, approx_tradeoff.
    unfold Num.zero, Num.one, Num.sub.
    cbn [fold_left Num.neg Num.mul Num.add].
    rewrite !maximum_Fin. reflexivity.
  - intros x Hx.
    replace ((0 <=? Fin x) && (Fin x <=? 1)) with false; [reflexivity|].
    destruct Hx; settle_le; reflexivity.
Qed.

(** The evaluator of [approxdp_to_fdp] once [np.exp(eps)] has overflowed:
    the middle entry is minus infinity. *)
Lemma approxdp_to_fdp_big (e d : R) :
  (Np.exp_max < e)%R -> (0 <= d <= 1)%R ->
  exists fdp, approxdp_to_fdp (Fin e) (Fin d) = Ok fdp
    /\ fdp 0 = mret (Fin (1 - d))
    /\ (forall x, (0 < x <= 1)%R ->
          fdp (Fin x) = mret (Fin (Rmax 0 (exp (- e) * (1 - d - x)))))
    /\ (forall x, (x < 0 \/ 1 < x)%R -> fdp (Fin x) = mraise AssertionError).
Proof.
  intros He Hd. pose proof exp_max_bounds as Hb. unfold approxdp_to_fdp.
  replace ((Fin e >=? 0) && ((0 <=? Fin d) && (Fin d <=? 1))) with true.
  2:{ settle_le. reflexivity. }
  cbn [negb]. eexists. split; [reflexivity|]. cbv beta. split; [|split].
  - settle_le. unfold massert. rewrite mbind_ret_l. reflexivity.
  - intros x Hx. settle_le. unfold massert. rewrite mbind_ret_l.
    cbn [Num.neg]. rewrite np_exp_overflow, np_exp_Fin by lra.
    unfold np_max, mlift, mret, Num.zero, Num.one, Num.sub.
    cbn [fold_left Num.neg Num.mul Num.add]. unfold Num.scale_inf.
    rewrite (Rltb_true 0 x) by lra. cbn [Num.neg Num.add].
    unfold Np.maximum at 2. cbn [Num.is_nan orb Num.ltb].
    rewrite maximum_Fin. reflexivity.
  - intros x Hx.
    replace ((0 <=? Fin x) && (Fin x <=? 1)) with false; [reflexivity|].
    destruct Hx; settle_le; reflexivity.
Qed.

Lemma approx_tradeoff_range e d x :
  (0 <= e)%R -> (0 <= d <= 1)%R -> (0 <= x <= 1)%R ->
  (0 <= approx_tradeoff e d x <= 1 - d)%R.
Proof.
  intros He Hd Hx. pose proof (exp_ge_one e He) as H1.
  pose proof (exp_neg_le_one e He) as H2. unfold approx_tradeoff. split.
  - eapply Rle_trans; [|apply Rmax_l]. apply Rmax_l.
  - repeat apply Rmax_lub; nra.
Qed.

Lemma big_tradeoff_range e d x :
  (0 <= e)%R -> (0 <= d <= 1)%R -> (0 <= x <= 1)%R ->
  (0 <= Rmax 0 (exp (- e) * (1 - d - x)) <= 1 - d)%R.
Proof.
  intros He Hd Hx. pose proof (exp_neg_le_one e He) as H2. split.
  - apply Rmax_l.
  - apply Rmax_lub; nra.
Qed.

(** X3.  [approxdp_to_fdp] rejects eps < 0 and delta outside [0, 1] when
    it is called, and its evaluator rejects a rate outside [0, 1].  For a
    finite eps >= 0 and delta in [0, 1] the evaluator returns 1 - delta at
    rate 0, a value between 0 and 1 - delta at every rate in (0, 1], and 0
    at rate 1. *)
Theorem approxdp_to_fdp_behaviour (e d : R) :
  ((e < 0 \/ d < 0 \/ 1 < d)%R ->
   approxdp_to_fdp (Fin e) (Fin d) = Raise AssertionError)
  /\ ((0 <= e)%R -> (0 <= d <= 1)%R ->
      exists fdp, approxdp_to_fdp (Fin e) (Fin d) = Ok fdp
        /\ fdp 0 = mret (Fin (1 - d))
        /\ (forall x, (0 < x <= 1)%R ->
              exists v, fdp (Fin x) = mret (Fin v) /\ (0 <= v <= 1 - d)%R)
        /\ fdp 1 = mret (Fin 0)
        /\ (forall x, (x < 0 \/ 1 < x)%R ->
              fdp (Fin x) = mraise AssertionError)).
Proof.
  split.
  - intros H. unfold approxdp_to_fdp.
    replace ((Fin e >=? 0) && ((0 <=? Fin d) && (Fin d <=? 1))) with false;
      [reflexivity|].
    destruct H as [H | [H | H]]; settle_le;
      rewrite ?andb_false_r; reflexivity.
  - intros He Hd.
    pose proof (exp_neg_le_one e He) as H2.
    destruct (Rle_dec e Np.exp_max) as [Hsmall | Hbig].
    + destruct (approxdp_to_fdp_ok e d (conj He Hsmall) Hd)
        as (fdp & Hf & H0 & Hin & Hout).
      exists fdp. split; [done|]. split; [done|]. split; [|split; [|done]].
      * intros x Hx. exists (approx_tradeoff e d x). split; [by apply Hin|].
        apply approx_tradeoff_range; lra.
      * change (1 : num) with (Fin 1). rewrite Hin by lra. do 2 f_equal.
        pose proof (approx_tradeoff_range e d 1 He Hd ltac:(lra)) as Hr.
        pose proof (exp_ge_one e He) as H1.
        apply Rle_antisym; [|lra]. unfold approx_tradeoff.
        repeat apply Rmax_lub; nra.
    + destruct (approxdp_to_fdp_big e d ltac:(lra) Hd)
        as (fdp & Hf & H0 & Hin & Hout).
      exists fdp. split; [done|]. split; [done|]. split; [|split; [|done]].
      * intros x Hx. eexists. split; [by apply Hin|].
        apply big_tradeoff_range; lra.
      * change (1 : num) with (Fin 1). rewrite Hin by lra. do 2 f_equal.
        apply Rmax_left. nra.
Qed.

(** X4.  With delta = 0 the evaluator of [approxdp_to_fdp] and
    [puredp_to_fdp] agree at every rate in (0, 1], for every finite
    eps >= 0.  At rate 0 they agree, on the value 1, as long as
    [np.exp(eps)] does not overflow (eps <= 709.782712893384); for a
    larger finite eps, and for an infinite eps, [approxdp_to_fdp] treats
    rate 0 apart and returns 1, while [puredp_to_fdp] computes inf * 0
    and returns NaN. *)
Theorem approxdp_to_fdp_extends_puredp_to_fdp :
  (forall e, (0 <= e)%R ->
     exists fdp, approxdp_to_fdp (Fin e) 0 = Ok fdp
       /\ (forall x, (0 < x <= 1)%R ->
             fdp (Fin x) = puredp_to_fdp (Fin e) (Fin x))
       /\ fdp 0 = mret (Fin 1)
       /\ ((e <= Np.exp_max)%R -> puredp_to_fdp (Fin e) 0 = mret (Fin 1))
       /\ ((Np.exp_max < e)%R -> puredp_to_fdp (Fin e) 0 = mret NaN))
  /\ (exists fdp, approxdp_to_fdp PInf 0 = Ok fdp
        /\ (forall x, (0 < x <= 1)%R ->
              fdp (Fin x) = mret (Fin 0)
              /\ puredp_to_fdp PInf (Fin x) = mret (Fin 0))
        /\ fdp 0 = mret (Fin 1)
        /\ puredp_to_fdp PInf 0 = mret NaN).
Proof.
  pose proof exp_max_bounds as Hb.
  split.
  - intros e He.
    assert (Hone : (Fin (1 - 0) : num) = Fin 1) by (f_equal; lra).
    destruct (Rle_dec e Np.exp_max) as [Hsmall | Hbig].
    + destruct (approxdp_to_fdp_ok e 0 (conj He Hsmall) ltac:(lra))
        as (fdp & Hf & H0 & Hin & _).
      exists fdp. split; [exact Hf|]. split; [|split; [|split]].
      * intros x Hx. rewrite puredp_to_fdp_Fin by lra.
        rewrite Hin by lra. do 2 f_equal.
        unfold approx_tradeoff, pure_tradeoff.
        f_equal; [f_equal|]; f_equal; lra.
      * by rewrite H0, Hone.
      * intros _. change (0 : num) with (Fin 0).
        rewrite puredp_to_fdp_Fin by lra. do 2 f_equal.
        pose proof (pure_tradeoff_range e 0 He ltac:(lra)) as Hr.
        apply Rle_antisym; [lra|]. unfold pure_tradeoff.
        eapply Rle_trans; [|apply Rmax_l].
        eapply Rle_trans; [|apply Rmax_r]. lra.
      * intros Hc. lra.
    + destruct (approxdp_to_fdp_big e 0 ltac:(lra) ltac:(lra))
        as (fdp & Hf & H0 & Hin & _).
      destruct (puredp_to_fdp_overflow e ltac:(lra)) as [Hnan Hpos].
      exists fdp. split; [exact Hf|]. split; [|split; [|split]].
      * intros x Hx. rewrite Hpos, Hin by lra. do 3 f_equal. lra.
      * by rewrite H0, Hone.
      * intros Hc. lra.
      * intros _. exact Hnan.
  - unfold approxdp_to_fdp.
    replace ((PInf >=? 0) && ((0 <=? 0) && (0 <=? 1))) with true.
    2:{ settle_le. reflexivity. }
    cbn [negb]. eexists. split; [reflexivity|]. cbv beta.
    split; [|split].
    + intros x Hx. split.
      * settle_le. unfold massert. rewrite mbind_ret_l. reflexivity.
      * unfold puredp_to_fdp, np_max, mlift, mret, Num.zero, Num.one, Num.sub.
        cbn [fold_left Np.exp Num.neg Num.mul]. unfold Num.scale_inf.
        rewrite (Rltb_true 0 x) by lra. cbn [Num.neg Num.add].
        unfold Np.maximum at 2. cbn [Num.is_nan orb Num.ltb].
        rewrite maximum_Fin.
        replace (Rmax 0 (0 * (1 + - x))) with 0%R; [reflexivity|].
        symmetry. apply Rmax_left. nra.
    + settle_le. unfold massert. rewrite mbind_ret_l.
      unfold mret. do 2 f_equal.
      unfold Num.sub, Num.neg, Num.add, Num.one, Num.zero. f_equal. lra.
    + unfold puredp_to_fdp, np_max, mlift, mret, Num.zero, Num.one, Num.sub.
      cbn [fold_left Np.exp Num.neg Num.mul]. unfold Num.scale_inf.
      rewrite !(Rltb_false 0 0) by lra. reflexivity.
Qed.

(** ** converter.py: end points, domains and how the converters relate *)

(** X5.  The trade-off functions obtained from RDP and from an approx-DP
    curve give their end values without running the optimizer and without
    querying the curve they were built from: [single_rdp_to_fdp] (for an
    order >= 0.5) and [rdp_to_fdp] return 1 at rate 0 and 0 at rate 1, and
    [approxdp_func_to_fdp] returns 0 at rate 1 in both of its modes. *)
Theorem fdp_end_points (alpha rho alpha_max : num) (rdp func : evaluator)
    (delta_func : bool) :
  (alpha >=? one_half) = true ->
  (exists fdp, single_rdp_to_fdp alpha rho = Ok fdp
     /\ fdp 0 = mret 1 /\ fdp 1 = mret 0)
  /\ rdp_to_fdp rdp alpha_max 0 = mret 1
  /\ rdp_to_fdp rdp alpha_max 1 = mret 0
  /\ approxdp_func_to_fdp func delta_func 1 = mret 0.
Proof.
  intros Ha. split; [|split; [|split]].
  - unfold single_rdp_to_fdp. rewrite Ha. cbn [negb].
    eexists. split; [reflexivity|]. cbv beta. split.
    + settle_le. unfold massert. by rewrite mbind_ret_l.
    + settle_le. unfold massert. by rewrite mbind_ret_l.
  - unfold rdp_to_fdp. settle_le. unfold massert. by rewrite mbind_ret_l.
  - unfold rdp_to_fdp. settle_le. unfold massert. by rewrite mbind_ret_l.
  - unfold approxdp_func_to_fdp.
    destruct delta_func; settle_le; unfold massert; by rewrite mbind_ret_l.
Qed.

(** X6.  The inner epsilon search of [rdp_to_delta] in its naive mode is
    the evaluator of [rdp_to_approxdp] with the naive bound and the order
    ceiling 100000, less the domain message: the two run the optimizer on
    the same objective with the same arguments, and [rdp_to_approxdp]
    only prints its error line first when delta is outside [0, 1]. *)
Theorem rdp_to_approxdp_naive_is_get_eps (rdp : evaluator) (delta : num) :
  rdp_to_approxdp rdp hundred_thousand false delta =
    mbind (if (delta <? 0) || (delta >? 1)
           then mprint delta_error_message else mret tt)
          (fun _ => get_eps rdp true delta).
Proof. reflexivity. Qed.

Lemma numerical_inverse_out_of_bounds f b0 b1 tol y :
  (y >? b1) || (y <? b0) = true ->
  numerical_inverse f (Some (b0, b1)) tol y = mret None.
Proof. intros H. unfold numerical_inverse. by rewrite H. Qed.

Lemma numerical_inverse_in_bounds f b0 b1 tol y :
  (y >? b1) || (y <? b0) = false ->
  numerical_inverse f (Some (b0, b1)) tol y =
    mbind (minimize_scalar (inverse_objective f y)
             (inverse_args (Some (b0, b1)) tol)) (fun results =>
    if success results then mret (Some (x_ results)) else mret None).
Proof. intros H. unfold numerical_inverse. by rewrite H. Qed.

Lemma cdf_to_approxdp_unfold cdf_p cdf_q delta :
  cdf_to_approxdp cdf_p cdf_q delta =
    mbind (numerical_inverse (cdf_trade_off cdf_p cdf_q) (Some (0, 1))
             one_hundredth (1 - delta)) log_option.
Proof. reflexivity. Qed.

Lemma one_minus_out_of_unit d :
  (d < 0 \/ 1 < d)%R -> ((1 - Fin d >? 1) || (1 - Fin d <? 0)) = true.
Proof.
  intros H. unfold Num.sub, Num.neg, Num.add, Num.one, Num.zero, Num.gtb.
  cbn [Num.ltb]. destruct H.
  - rewrite (Rltb_true 1 (1 + - d)) by lra. reflexivity.
  - rewrite (Rltb_false 1 (1 + - d)), (Rltb_true (1 + - d) 0) by lra.
    reflexivity.
Qed.

Lemma one_minus_in_unit d :
  (0 <= d <= 1)%R -> ((1 - Fin d >? 1) || (1 - Fin d <? 0)) = false.
Proof.
  intros H. unfold Num.sub, Num.neg, Num.add, Num.one, Num.zero, Num.gtb.
  cbn [Num.ltb].
  rewrite (Rltb_false 1 (1 + - d)), (Rltb_false (1 + - d) 0) by lra.
  reflexivity.
Qed.

(** X7.  The converters that invert a function with
    [numerical_inverse] over the bounds [0, 1] do not answer with a
    number when the inversion has no result: [numerical_inverse] returns
    None for a point outside the bounds (without evaluating anything) and
    when the optimizer reports failure, and [cdf_to_approxdp] and
    [fdp_to_approxdp] then take the logarithm of None.  So for a delta
    outside [0, 1] both raise TypeError, printing nothing, and
    [cdf_to_approxdp] raises TypeError for a delta in [0, 1] whenever the
    optimizer fails. *)
Theorem inverse_converters_raise_type_error (cdf_p cdf_q fdp : evaluator)
    (delta_func : evaluator) (d : R) :
  ((d < 0 \/ 1 < d)%R ->
     cdf_to_approxdp cdf_p cdf_q (Fin d) = mraise TypeError
     /\ fdp_to_approxdp fdp (Fin d) = mraise TypeError
     /\ approxdp_from_its_inverse delta_func (Fin d) = mret None)
  /\ ((0 <= d <= 1)%R ->
      forall out results,
        minimize_scalar
          (inverse_objective (cdf_trade_off cdf_p cdf_q) (1 - Fin d))
          (inverse_args (Some (0, 1)) one_hundredth) = (out, Ok results) ->
        success results = false ->
        cdf_to_approxdp cdf_p cdf_q (Fin d) = (out, Raise TypeError)).
Proof.
  split.
  - intros Hd. pose proof (one_minus_out_of_unit d Hd) as Hout.
    split; [|split].
    + rewrite cdf_to_approxdp_unfold.
      by rewrite numerical_inverse_out_of_bounds.
    + unfold fdp_to_approxdp.
      by rewrite numerical_inverse_out_of_bounds.
    + unfold approxdp_from_its_inverse.
      apply numerical_inverse_out_of_bounds.
      unfold Num.gtb, Num.one, Num.zero. cbn [Num.ltb].
      destruct Hd.
      * rewrite (Rltb_false 1 d), (Rltb_true d 0) by lra. reflexivity.
      * rewrite (Rltb_true 1 d) by lra. reflexivity.
  - intros Hd out results Hmin Hfail. rewrite cdf_to_approxdp_unfold.
    rewrite numerical_inverse_in_bounds by (by apply one_minus_in_unit).
    rewrite Hmin. unfold mbind, mret, log_option, mraise. simpl.
    rewrite Hfail. by rewrite !app_nil_r.
Qed.

(** X8.  [approxdp_to_approxrdp] does not look at eps when it is called,
    only when its result is queried at a delta that is large enough:
    below the threshold delta the answer is infinity whatever eps is;
    from the threshold on, the query at the infinite order returns eps
    when eps >= 0 and raises AssertionError when it is not. *)
Theorem approxdp_to_approxrdp_threshold (eps delta alpha delta1 : num) :
  ((delta1 >=? delta) = false ->
     approxdp_to_approxrdp eps delta alpha delta1 = mret Np.inf)
  /\ ((delta1 >=? delta) = true -> (eps >=? 0) = true ->
      approxdp_to_approxrdp eps delta Np.inf delta1 = mret eps)
  /\ ((delta1 >=? delta) = true -> (eps >=? 0) = false ->
      approxdp_to_approxrdp eps delta alpha delta1 = mraise AssertionError).
Proof.
  unfold approxdp_to_approxrdp. split; [|split].
  - intros ->. reflexivity.
  - intros -> He. unfold puredp_to_rdp. rewrite He. reflexivity.
  - intros -> He. unfold puredp_to_rdp. rewrite He. reflexivity.
Qed.

(** X9.  The function that [cdf_to_approxdp] inverts is one minus
    [cdf_to_approxdelta]: [trade_off(x)] queries the two CDFs at log x and
    -log x, and when they return the probabilities a and b there it
    returns a + x * b, while [cdf_to_approxdelta] at eps = log x returns
    1 - a - exp(log x) * b, which is one minus that value (exp(log x) is
    x, up to rounding).  Stated for 0 < x with log x <= 709, where
    [np.exp] does not overflow. *)
Theorem cdf_trade_off_is_one_minus_delta (cdf_p cdf_q : evaluator)
    (x a b : R) :
  (0 < x)%R -> (ln x <= 709)%R ->
  (0 <= a <= 1)%R -> (0 <= b <= 1)%R ->
  cdf_p (Np.log (Fin x)) = mret (Fin a) ->
  cdf_q (- Np.log (Fin x)) = mret (Fin b) ->
  outcome (cdf_trade_off cdf_p cdf_q (Fin x)) = Ok (Fin (a + x * b))
  /\ cdf_to_approxdelta cdf_p cdf_q (Np.log (Fin x))
     = mret (Fin (1 - (a + x * b))).
Proof.
  intros Hx Hln Ha Hb Hp Hq. pose proof exp_max_bounds as Hmax. split.
  - unfold cdf_trade_off. rewrite Hp, mbind_ret_l, Hq, mbind_ret_l.
    unfold mbind, mprint, mret, outcome. reflexivity.
  - unfold cdf_to_approxdelta. rewrite Hp, mbind_ret_l, Hq, mbind_ret_l.
    unfold Np.log. rewrite (Rltb_true 0 x) by lra.
    rewrite np_exp_Fin by lra. rewrite exp_ln by lra.
    unfold mret, Num.sub, Num.neg, Num.add, Num.mul, Num.one.
    do 3 f_equal. lra.
Qed.

(** ** transformer_zoo.py: the bookkeeping of the compositions *)

Lemma named_params_insert p d h m :
  params m <> p -> named_params (<[p := d]> h) m = named_params h m.
Proof.
  intros Hne. unfold named_params, contents. by rewrite lookup_insert_ne.
Qed.

Lemma update_params_loop_contents p ml h :
  Forall (fun m => params m <> p) ml ->
  exists h', update_params_loop p ml h = (Ok tt, h')
    /\ contents p h'
       = fold_left (fun acc d => d ∪ acc) (map (named_params h) ml)
           (contents p h).
Proof.
  revert h. induction ml as [|m ml IH]; intros h Hall.
  - eexists. split; reflexivity.
  - apply Forall_cons in Hall as [Hm Hall].
    cbn [update_params_loop]. unfold tbind, read_dict, dict_update.
    cbn -[contents].
    destruct (IH (<[p := params_cur m (contents (params m) h) ∪ contents p h]> h)
                Hall) as (h' & Hrun & Hc).
    exists h'. split; [exact Hrun|]. rewrite Hc, contents_insert.
    cbn [map fold_left]. f_equal.
    apply map_ext_Forall. eapply Forall_impl; [exact Hall|].
    intros m' Hm'. cbv beta. by apply named_params_insert.
Qed.

Lemma fresh_not_params (h : store) (ml : list Mechanism) :
  Forall (fun m => params m ∈ dom h) ml ->
  Forall (fun m => params m <> fresh (dom h)) ml.
Proof.
  intros H. eapply Forall_impl; [exact H|]. intros m Hm Heq. cbv beta in *.
  rewrite Heq in Hm. by apply (is_fresh (dom h)).
Qed.

Lemma named_params_fresh (h : store) d ml :
  Forall (fun m => params m ∈ dom h) ml ->
  map (named_params (<[fresh (dom h) := d]> h)) ml = map (named_params h) ml.
Proof.
  intros H. apply map_ext_Forall.
  eapply Forall_impl; [exact (fresh_not_params h ml H)|].
  intros m Hm. cbv beta. by apply named_params_insert.
Qed.

(** [update_params] on live mechanisms: a new dictionary with the merged
    entries, every other dictionary as before. *)
Lemma update_params_spec ml (h : store) :
  Forall (fun m => params m ∈ dom h) ml ->
  exists p h', update_params ml h = (Ok p, h')
    /\ (p ∉ dom h)
    /\ contents p h' = merged_params h ml
    /\ forall l, l <> p -> h' !! l = h !! l.
Proof.
  intros Hlive. unfold update_params, tbind, new_dict, tret.
  set (p := fresh (dom h)).
  destruct (update_params_loop_contents p ml (<[p := ∅]> h)) as (h' & Hrun & Hc).
  { by apply fresh_not_params. }
  rewrite Hrun. exists p, h'. split; [reflexivity|].
  split; [apply is_fresh|]. split.
  - rewrite Hc, contents_insert. unfold merged_params. f_equal.
    by apply named_params_fresh.
  - intros l Hl. rewrite (update_params_loop_frame _ _ _ _ _ _ Hrun Hl).
    by rewrite lookup_insert_ne.
Qed.

Lemma dom_after_init (h : store) l : l ∈ dom h -> l ∈ dom (after_init h).
Proof.
  intros H. unfold after_init. apply elem_of_dom.
  destruct (decide (l = fresh (dom h))) as [-> | Hne].
  - by rewrite lookup_insert_eq.
  - rewrite lookup_insert_ne by done. by apply elem_of_dom.
Qed.

Lemma merged_params_after_init (h : store) ml :
  Forall (fun m => params m ∈ dom h) ml ->
  merged_params (after_init h) ml = merged_params h ml.
Proof.
  intros H. unfold merged_params, after_init. f_equal.
  by apply named_params_fresh.
Qed.

(** The [params] of a composition. *)
Lemma Composition_compose_params ml cl r b f (h : store) :
  zip ml cl <> [] ->
  Forall (fun m => params m ∈ dom h) ml ->
  exists newmech h',
    Composition_compose ml cl r b f h = (Ok newmech, h')
    /\ (params newmech ∉ dom h)
    /\ contents (params newmech) h' = merged_params h ml
    /\ (forall l, l ∈ dom h -> h' !! l = h !! l).
Proof.
  intros Hne Hlive.
  unfold Composition_compose, tbind, Mechanism_init, new_dict, tret, tlift,
    propagate_updates. cbn -[update_params Py.max].
  fold (after_init h).
  destruct (zip ml cl) as [|mc l0] eqn:Ez; [done|]. cbn -[update_params].
  destruct (update_params_spec ml (after_init h)) as (p & h' & Hup & Hp & Hc & Hfr).
  { eapply Forall_impl; [exact Hlive|]. intros m. apply dom_after_init. }
  rewrite Hup. do 2 eexists. split; [reflexivity|]. cbn [params set_params].
  split; [|split].
  - intros Hin. apply Hp. by apply dom_after_init.
  - rewrite Hc. by apply merged_params_after_init.
  - intros l Hl. rewrite Hfr.
    + unfold after_init. rewrite lookup_insert_ne; [done|].
      intros <-. by apply (is_fresh (dom h)).
    + intros ->. apply Hp. by apply dom_after_init.
Qed.

#[local] Instance name_prefix_inj (nm : string) :
  Inj (=) (=) (fun k => nm +:+ ":" +:+ k).
Proof. intros k1 k2 H. by do 2 apply String.app_inj in H. Qed.

Lemma named_params_lookup h m k :
  named_params h m !! (name m +:+ ":" +:+ k) = contents (params m) h !! k.
Proof.
  unfold named_params, params_cur.
  apply (lookup_kmap (fun k => name m +:+ ":" +:+ k)).
Qed.

Lemma merged_params_snoc h ml m :
  merged_params h (ml ++ [m]) = named_params h m ∪ merged_params h ml.
Proof.
  unfold merged_params. by rewrite map_app, fold_left_app.
Qed.

Lemma merged_params_origin h ml key v :
  merged_params h ml !! key = Some v ->
  exists m k, In m ml /\ key = name m +:+ ":" +:+ k
              /\ contents (params m) h !! k = Some v.
Proof.
  induction ml as [|m ml IH] using rev_ind.
  - unfold merged_params. simpl. by rewrite lookup_empty.
  - rewrite merged_params_snoc. intros Hl.
    apply lookup_union_Some_raw in Hl as [Hl | [_ Hl]].
    + unfold named_params, params_cur in Hl.
      apply (lookup_kmap_Some (fun k => name m +:+ ":" +:+ k)) in Hl
        as (k & -> & Hk).
      exists m, k. split; [apply in_or_app; right; by left | done].
    + destruct (IH Hl) as (m' & k & Hin & Hkey & Hk).
      exists m', k. split; [apply in_or_app; by left | done].
Qed.

(** X10.  The [params] of a composition are a new dictionary; when two
    of the composed mechanisms produce the same key [name:param] (two
    mechanisms with one name), the later one in the list wins and the
    earlier value is lost: every parameter of the last mechanism is in
    the result under its prefixed key. *)
Theorem compose_params_last_wins ml m cl r b f (h : store) k v :
  zip (ml ++ [m]) cl <> [] ->
  Forall (fun m => params m ∈ dom h) (ml ++ [m]) ->
  contents (params m) h !! k = Some v ->
  exists newmech h',
    Composition_compose (ml ++ [m]) cl r b f h = (Ok newmech, h')
    /\ (params newmech ∉ dom h)
    /\ contents (params newmech) h' !! (name m +:+ ":" +:+ k) = Some v.
Proof.
  intros Hne Hlive Hk.
  destruct (Composition_compose_params (ml ++ [m]) cl r b f h Hne Hlive)
    as (newmech & h' & Hc & Hp & Hcont & _).
  exists newmech, h'. split; [done|]. split; [done|].
  rewrite Hcont, merged_params_snoc. apply lookup_union_Some_l.
  by rewrite named_params_lookup.
Qed.

(** X11.  Every entry of the [params] of a composition comes from one of
    the composed mechanisms: its key is that mechanism's name, a colon,
    and one of the mechanism's parameter names, and its value is that
    parameter's value. *)
Theorem compose_params_origin ml cl r b f (h : store) :
  zip ml cl <> [] ->
  Forall (fun m => params m ∈ dom h) ml ->
  exists newmech h',
    Composition_compose ml cl r b f h = (Ok newmech, h')
    /\ forall key v,
         contents (params newmech) h' !! key = Some v ->
         exists m k, In m ml /\ key = name m +:+ ":" +:+ k
                     /\ contents (params m) h !! k = Some v.
Proof.
  intros Hne Hlive.
  destruct (Composition_compose_params ml cl r b f h Hne Hlive)
    as (newmech & h' & Hc & _ & Hcont & _).
  exists newmech, h'. split; [done|]. intros key v. rewrite Hcont.
  apply merged_params_origin.
Qed.

Lemma zip_app_surplus {A B} (l extra : list A) (k : list B) :
  length l = length k -> zip (l ++ extra) k = zip l k.
Proof.
  revert k. induction l as [|a l IH]; intros [|b k] Hlen;
    simpl in *; try discriminate.
  - by destruct extra.
  - injection Hlen as Hlen. by rewrite IH.
Qed.

Lemma Composition_compose_delta0 ml cl r b f h newmech h' :
  Composition_compose ml cl r b f h = (Ok newmech, h') ->
  Py.max (map (fun mc => delta0 (fst mc)) (zip ml cl)) = Ok (delta0 newmech).
Proof.
  unfold Composition_compose, tbind, Mechanism_init, new_dict, tret, tlift,
    propagate_updates. cbn -[update_params Py.max].
  destruct (Py.max _) as [d0|e]; cbn -[update_params]; [|discriminate].
  destruct (update_params ml _) as [[p|e] h2]; [|discriminate].
  intros [= <- _]. reflexivity.
Qed.

(** X12.  [compose] pairs mechanisms with coefficients by [zip]: the
    mechanisms beyond the length of the coefficient list take no part in
    the epsilon, the RDP curve, the approx-DP curve, [delta0] or the name
    of the result -- these are the ones of the composition without the
    surplus -- but [update_params] walks the whole mechanism list, so
    their parameters are in the result's [params]. *)
Theorem compose_surplus_mechanisms ml extra cl r b f (h : store) :
  ml <> [] -> length ml = length cl ->
  Forall (fun m => params m ∈ dom h) (ml ++ extra) ->
  exists newmech h1 short h2,
    Composition_compose (ml ++ extra) cl r b f h = (Ok newmech, h1)
    /\ Composition_compose ml cl r b f h = (Ok short, h2)
    /\ eps_pureDP newmech = eps_pureDP short
    /\ RenyiDP newmech = RenyiDP short
    /\ approxDP newmech = approxDP short
    /\ delta0 newmech = delta0 short
    /\ name newmech = name short
    /\ contents (params newmech) h1 = merged_params h (ml ++ extra)
    /\ contents (params short) h2 = merged_params h ml.
Proof.
  intros Hne Hlen Hlive.
  assert (Hz : zip (ml ++ extra) cl = zip ml cl) by by apply zip_app_surplus.
  assert (Hnz : zip ml cl <> []) by by apply zip_nonempty.
  destruct (Composition_compose_params (ml ++ extra) cl r b f h)
    as (newmech & h1 & Hc1 & _ & Hp1 & _); [by rewrite Hz | done |].
  destruct (Composition_compose_params ml cl r b f h)
    as (short & h2 & Hc2 & _ & Hp2 & _);
    [done | by apply Forall_app in Hlive as [? _] |].
  exists newmech, h1, short, h2. split; [done|]. split; [done|].
  pose proof (Composition_compose_delta0 _ _ _ _ _ _ _ _ Hc1) as Hd1.
  pose proof (Composition_compose_delta0 _ _ _ _ _ _ _ _ Hc2) as Hd2.
  destruct (Composition_compose_fields (ml ++ extra) cl r b f h)
    as (m1 & h1' & Hc1' & He1 & HR1 & HA1 & HN1); [by rewrite Hz|].
  destruct (Composition_compose_fields ml cl r b f h)
    as (m2 & h2' & Hc2' & He2 & HR2 & HA2 & HN2); [done|].
  rewrite Hc1 in Hc1'. injection Hc1' as <- <-.
  rewrite Hc2 in Hc2'. injection Hc2' as <- <-.
  assert (Hrdp : Composition_newrdp (ml ++ extra) cl = Composition_newrdp ml cl).
  { unfold Composition_newrdp. by rewrite Hz. }
  split; [by rewrite He1, He2, Hz|].
  split; [by rewrite HR1, HR2, Hrdp|].
  split; [by rewrite HA1, HA2, Hrdp|].
  split; [rewrite Hz in Hd1; congruence|].
  split; [rewrite HN1, HN2; unfold update_name; by rewrite Hz|].
  done.
Qed.

Lemma update_params_frame ml (h : store) r h' l :
  update_params ml h = (r, h') -> l ∈ dom h -> h' !! l = h !! l.
Proof.
  unfold update_params, tbind, new_dict, tret. intros Hrun Hl.
  assert (Hne : l <> fresh (dom h)).
  { intros ->. by apply (is_fresh (dom h)). }
  destruct (update_params_loop (fresh (dom h)) ml (<[fresh (dom h) := ∅]> h))
    as [[[]|e] h2] eqn:E; injection Hrun as _ <-;
    rewrite (update_params_loop_frame _ _ _ _ _ _ E Hne);
    by rewrite lookup_insert_ne.
Qed.

Lemma ComposeAFA_compose_frame ml cl (h : store) res h' l :
  ComposeAFA_compose ml cl h = (res, h') -> l ∈ dom h -> h' !! l = h !! l.
Proof.
  intros Hrun Hl.
  assert (Hinit : after_init h !! l = h !! l).
  { unfold after_init. rewrite lookup_insert_ne; [done|].
    intros <-. by apply (is_fresh (dom h)). }
  destruct (existsb only_lower ml && existsb only_upper ml) eqn:E.
  - rewrite (ComposeAFA_rejects ml cl h E) in Hrun.
    injection Hrun as _ <-. exact Hinit.
  - revert Hrun.
    unfold ComposeAFA_compose, tbind, Mechanism_init, new_dict, tret.
    rewrite directions_spec. cbn -[update_params]. rewrite E.
    cbn -[update_params]. fold (after_init h).
    destruct (forallb exactPhi ml); [|destruct (existsb only_lower ml)];
      cbn -[update_params]; unfold tlift;
      destruct (update_params ml (after_init h)) as [[p|e] h2] eqn:Eu;
      intros [= _ <-];
      rewrite (update_params_frame _ _ _ _ _ Eu (dom_after_init _ _ Hl));
      exact Hinit.
Qed.

(** X13.  The two compositions leave every dictionary that existed before
    the call as it was, whether they return or raise: they only add
    dictionaries of their own to the store. *)
Theorem compositions_leave_existing_params ml cl r b f (h : store) l :
  l ∈ dom h ->
  snd (Composition_compose ml cl r b f h) !! l = h !! l
  /\ snd (ComposeAFA_compose ml cl h) !! l = h !! l.
Proof.
  intros Hl. split.
  - destruct (Composition_compose ml cl r b f h) as [res h'] eqn:E.
    exact (Composition_compose_frame _ _ _ _ _ _ _ _ _ E Hl).
  - destruct (ComposeAFA_compose ml cl h) as [res h'] eqn:E.
    exact (ComposeAFA_compose_frame _ _ _ _ _ _ E Hl).
Qed.

Lemma Py_max_Fin (a : R) (l : list R) :
  exists d, fold_left (fun m x => if x >? m then x else m) (map Fin l) (Fin a)
            = Fin d
    /\ In d (a :: l) /\ Forall (fun x => (x <= d)%R) (a :: l).
Proof.
  revert a. induction l as [|x l IH]; intros a.
  - exists a. split; [reflexivity|]. split; [by left|].
    constructor; [lra | constructor].
  - cbn [map fold_left]. unfold Num.gtb. cbn [Num.ltb]. unfold Rltb.
    destruct (Rlt_dec a x) as [Hlt | Hge].
    + destruct (IH x) as (d & Hd & Hin & Hall). exists d. split; [exact Hd|].
      apply Forall_cons in Hall as [Hx Hall].
      split; [right; exact Hin|].
      constructor; [lra|]. by constructor.
    + destruct (IH a) as (d & Hd & Hin & Hall). exists d. split; [exact Hd|].
      apply Forall_cons in Hall as [Ha Hall].
      split; [destruct Hin as [<- | Hin]; [by left | right; by right]|].
      constructor; [done|]. constructor; [lra | done].
Qed.

(** X14.  The [delta0] of a composition is the largest [delta0] of the
    composed mechanisms: with finite values, it is one of them and none
    of them is larger. *)
Theorem compose_delta0_is_max ml cl (ds : list R) r b f h :
  ml <> [] -> length ml = length cl ->
  map delta0 ml = map Fin ds ->
  exists newmech h' d,
    Composition_compose ml cl r b f h = (Ok newmech, h')
    /\ delta0 newmech = Fin d
    /\ In d ds /\ Forall (fun x => (x <= d)%R) ds.
Proof.
  intros Hne Hlen Hds.
  destruct (Composition_compose_fields ml cl r b f h)
    as (newmech & h' & Hc & _); [by apply zip_nonempty|].
  pose proof (Composition_compose_delta0 _ _ _ _ _ _ _ _ Hc) as Hmax.
  assert (Hmap : map (fun mc => delta0 (fst mc)) (zip ml cl) = map Fin ds).
  { rewrite <- Hds. clear -Hlen. revert cl Hlen.
    induction ml as [|m ml IH]; intros [|c cl] Hlen;
      simpl in *; try discriminate; [reflexivity|].
    injection Hlen as Hlen. by rewrite IH. }
  rewrite Hmap in Hmax.
  destruct ds as [|a ds]; [destruct ml; done|].
  cbn [map Py.max] in Hmax. injection Hmax as Hmax.
  destruct (Py_max_Fin a ds) as (d & Hd & Hin & Hall).
  exists newmech, h', d. split; [done|]. split; [congruence | done].
Qed.

(** ** transformer_zoo.py: the other branches of ComposeAFA *)

Lemma all_exact_no_direction ml :
  forallb exactPhi ml = true ->
  existsb only_lower ml = false /\ existsb only_upper ml = false.
Proof.
  induction ml as [|m ml IH]; simpl; [done|].
  rewrite andb_true_iff. intros [Hm Hml].
  destruct (IH Hml) as [-> ->]. unfold only_lower, only_upper.
  rewrite Hm. done.
Qed.

Lemma some_inexact ml :
  existsb only_lower ml = true -> forallb exactPhi ml = false.
Proof.
  induction ml as [|m ml IH]; simpl; [done|].
  rewrite orb_true_iff. unfold only_lower at 1.
  intros [Hm | Hml].
  - destruct (exactPhi m); [done | reflexivity].
  - rewrite (IH Hml). apply andb_false_r.
Qed.

(** X15.  Without a mechanism that carries only an upper bound,
    [ComposeAFA.compose] returns, and (a) when every mechanism is exact the
    result is exact, carries the four composed phi-functions, and its CDF
    pair is built from the composed upper phi-function of each side, p from
    p and q from q; (b) when some mechanism carries only a lower bound the
    result is not exact, carries the two composed lower phi-functions and
    no upper one, and its CDF pair is built from the composed lower
    phi-function of each side. *)
Theorem ComposeAFA_exact_and_lower_branches (ml : list Mechanism)
    (cl : list num) (h : store) :
  existsb only_upper ml = false ->
  exists newmech h',
    ComposeAFA_compose ml cl h = (Ok newmech, h')
    /\ (forallb exactPhi ml = true ->
        exactPhi newmech = true
        /\ phi_p_lower newmech = Some (fun x => new_phi_p_lower ml cl x)
        /\ phi_p_upper newmech = Some (fun x => new_phi_p_upper ml cl x)
        /\ phi_q_lower newmech = Some (fun x => new_phi_q_lower ml cl x)
        /\ phi_q_upper newmech = Some (fun x => new_phi_q_upper ml cl x)
        /\ cdf newmech
           = Some (fun x => cdf_approx (fun t => new_phi_p_upper ml cl t) x,
                   fun x => cdf_approx (fun t => new_phi_q_upper ml cl t) x))
    /\ (existsb only_lower ml = true ->
        exactPhi newmech = false
        /\ phi_p_lower newmech = Some (fun x => new_phi_p_lower ml cl x)
        /\ phi_q_lower newmech = Some (fun x => new_phi_q_lower ml cl x)
        /\ phi_p_upper newmech = None
        /\ phi_q_upper newmech = None
        /\ cdf newmech
           = Some (fun x => cdf_approx (fun t => new_phi_p_lower ml cl t) x,
                   fun x => cdf_approx (fun t => new_phi_q_lower ml cl t) x)).
Proof.
  intros Hup.
  unfold ComposeAFA_compose, tbind, Mechanism_init, new_dict, tret.
  rewrite directions_spec. simpl. rewrite Hup, andb_false_r. simpl.
  destruct (forallb exactPhi ml) eqn:Hex.
  - destruct (all_exact_no_direction ml Hex) as [Hlow _]. rewrite Hlow.
    simpl. unfold tlift.
    match goal with |- context [update_params ml ?h0] =>
      destruct (update_params_ok ml h0) as (p & h' & ->) end.
    do 2 eexists. split; [reflexivity|]. simpl. split; [|done].
    intros _. repeat (split; [reflexivity|]). reflexivity.
  - destruct (existsb only_lower ml) eqn:Hlow; simpl; unfold tlift;
      match goal with |- context [update_params ml ?h0] =>
        destruct (update_params_ok ml h0) as (p & h' & ->) end;
      do 2 eexists; (split; [reflexivity|]); simpl; (split; [done|]);
      [|done].
    intros _. repeat (split; [reflexivity|]). reflexivity.
Qed.

Lemma outcome_mbind_ok {A B} (m : M A) (k : A -> M B) a :
  outcome m = Ok a -> outcome (mbind m k) = outcome (k a).
Proof.
  destruct m as [out r]. unfold outcome, mbind. simpl. intros ->.
  by destruct (k a).
Qed.

Lemma outcome_mbind_raise {A B} (m : M A) (k : A -> M B) e :
  outcome m = Raise e -> outcome (mbind m k) = Raise e.
Proof.
  destruct m as [out r]. unfold outcome, mbind. simpl. by intros ->.
Qed.

Lemma new_phi_missing (attr : Mechanism -> option phi_function)
    pre m post cl t :
  length pre < length cl ->
  attr m = None ->
  Forall (fun m' => exists phi v,
            attr m' = Some phi /\ outcome (phi t) = Ok v) pre ->
  outcome (new_phi attr (pre ++ m :: post) cl t) = Raise AttributeError.
Proof.
  intros Hlen Hm Hpre. unfold new_phi. apply outcome_mbind_raise.
  revert cl Hlen. induction Hpre as [|m' pre' (phi & v & Hattr & Hphi) _ IH];
    intros [|c cl'] Hlen; simpl in Hlen; try lia.
  - cbn [app zip zip_with mmap fst snd]. rewrite Hm. reflexivity.
  - cbn [app zip zip_with mmap fst snd]. rewrite Hattr.
    rewrite mbind_assoc. rewrite (outcome_mbind_ok _ _ v Hphi).
    rewrite mbind_ret_l. apply outcome_mbind_raise.
    apply IH. lia.
Qed.

(** X17.  [ComposeAFA.compose] does not look at the phi attributes of the
    mechanisms it composes: a list of exact mechanisms one of which has no
    [phi_p_upper] is composed without complaint, and the mechanism returned
    fails when its phi-function is evaluated, with AttributeError, once the
    mechanisms before the faulty one have given their values. *)
Theorem ComposeAFA_missing_phi_fails_late (pre post : list Mechanism)
    (m : Mechanism) (cl : list num) (h : store) (t : num) :
  forallb exactPhi (pre ++ m :: post) = true ->
  length pre < length cl ->
  phi_p_upper m = None ->
  Forall (fun m' => exists phi v,
            phi_p_upper m' = Some phi /\ outcome (phi t) = Ok v) pre ->
  exists newmech h' phi,
    ComposeAFA_compose (pre ++ m :: post) cl h = (Ok newmech, h')
    /\ exactPhi newmech = true
    /\ phi_p_upper newmech = Some phi
    /\ outcome (phi t) = Raise AttributeError.
Proof.
  intros Hex Hlen Hm Hpre.
  destruct (all_exact_no_direction _ Hex) as [Hlow Hup].
  assert (Hacc : existsb only_lower (pre ++ m :: post)
                 && existsb only_upper (pre ++ m :: post) = false).
  { by rewrite Hlow. }
  destruct (ComposeAFA_accepts _ cl h Hacc) as (newmech & h' & Hc & _ & He & _).
  revert Hc.
  unfold ComposeAFA_compose, tbind, Mechanism_init, new_dict, tret.
  rewrite directions_spec. simpl. rewrite Hex, Hlow, Hup. simpl. unfold tlift.
  match goal with |- context [update_params ?l ?h0] =>
    destruct (update_params_ok l h0) as (p & h2 & ->) end.
  intros [= <- <-]. do 3 eexists. split; [reflexivity|]. simpl.
  split; [reflexivity|]. split; [reflexivity|].
  by apply (new_phi_missing phi_p_upper).
Qed.

(** ** transformer_zoo.py: more of AmplificationBySampling *)

(** X18.  When the neighbouring relation of the mechanism does not fit the
    sampling scheme, [amplify] raises AssertionError before it asks the
    accountant and before the bookkeeping: every dictionary of the store,
    the [params] of the input among them, is as it was. *)
Theorem amplify_rejects_wrong_relation (self : AmplificationBySampling)
    (mechanism : Mechanism) (prob : num) (flag : bool) (h : store) :
  PoissonSampling self = replace_one mechanism ->
  exists h',
    AmplificationBySampling_amplify self mechanism prob flag h
      = (Raise AssertionError, h')
    /\ (forall l, l ∈ dom h -> h' !! l = h !! l)
    /\ contents (params mechanism) h' = contents (params mechanism) h.
Proof.
  intros Hscheme. exists (after_init h).
  split; [|split].
  - unfold AmplificationBySampling_amplify, tbind, Mechanism_init, new_dict,
      tret, tassert, traise.
    rewrite Hscheme. by destruct (replace_one mechanism).
  - intros l Hl. unfold after_init. rewrite lookup_insert_ne; [done|].
    intros <-. by apply (is_fresh (dom h)).
  - apply contents_after_init.
Qed.

Lemma amplify_replace_one self mechanism prob flag h newmech h' :
  AmplificationBySampling_amplify self mechanism prob flag h
    = (Ok newmech, h') ->
  replace_one newmech = negb (PoissonSampling self).
Proof.
  unfold AmplificationBySampling_amplify, tbind, Mechanism_init, new_dict,
    tret, tlift, tassert, traise, read_dict, dict_update, propagate_updates.
  cbn -[contents after_init amplify_loop].
  destruct (PoissonSampling self), (replace_one mechanism);
    cbn -[contents after_init amplify_loop]; try discriminate;
    destruct (anaRDPacct_evalRDP _ flag (call_RenyiDP mechanism) prob);
    cbn -[contents after_init amplify_loop]; try discriminate;
    match goal with |- context [amplify_loop ?f ?s ?p ?d ?n] =>
      destruct (amplify_loop f s p d n) end;
    cbn -[contents after_init amplify_loop]; try discriminate;
    intros [= <- _]; reflexivity.
Qed.

Lemma key_is_not_name self prob : amplify_key self prob 0 <> self_name self.
Proof.
  unfold amplify_key, amplify_newname. intros H.
  apply (f_equal String.length) in H.
  rewrite !string_length_app in H. simpl in H. lia.
Qed.

(** X19.  Amplifying twice with the same transformer, with probabilities
    whose keys [name_prob] are not in [params]: both calls return, the name
    of the result carries the transformer's name twice, and the [params],
    shared by the three mechanisms, hold one entry under the transformer's
    name, the second probability; the first probability is overwritten.
    The loop that looks for a free name tests the key [name_prob], the
    entry is stored under [name]. *)
Theorem amplify_twice_overwrites (self : AmplificationBySampling)
    (mechanism : Mechanism) (p1 p2 : num) (flag : bool) (h : store)
    (rdp1 rdp2 : evaluator) :
  PoissonSampling self = negb (replace_one mechanism) ->
  anaRDPacct_evalRDP (PoissonSampling self) flag (call_RenyiDP mechanism) p1
    = Ok rdp1 ->
  anaRDPacct_evalRDP (PoissonSampling self) flag rdp1 p2 = Ok rdp2 ->
  contents (params mechanism) h !! amplify_key self p1 0 = None ->
  contents (params mechanism) h !! amplify_key self p2 0 = None ->
  exists m1 h1 m2 h2,
    AmplificationBySampling_amplify self mechanism p1 flag h = (Ok m1, h1)
    /\ AmplificationBySampling_amplify self m1 p2 flag h1 = (Ok m2, h2)
    /\ params m1 = params mechanism
    /\ params m2 = params mechanism
    /\ name m2 = self_name self +:+ ":" +:+ self_name self +:+ ":"
                   +:+ name mechanism
    /\ contents (params mechanism) h1
         = <[self_name self := p1]> (contents (params mechanism) h)
    /\ contents (params mechanism) h2
         = <[self_name self := p2]> (contents (params mechanism) h).
Proof.
  intros Hscheme Hacct1 Hacct2 Hk1 Hk2.
  destruct (amplify_fields self mechanism p1 flag h rdp1 Hscheme Hacct1)
    as (n1 & m1 & h1 & Hc1 & _ & HR1 & Hp1 & Hn1 & _ & Hbelow1 & Hs1).
  assert (n1 = 0%nat) as ->.
  { destruct n1 as [|n1]; [reflexivity|].
    destruct (Hbelow1 0%nat) as [v Hv]; [lia|]. congruence. }
  pose proof (amplify_replace_one _ _ _ _ _ _ _ Hc1) as Hone.
  assert (Hscheme2 : PoissonSampling self = negb (replace_one m1)).
  { rewrite Hone. by rewrite negb_involutive. }
  assert (Hcall : call_RenyiDP m1 = rdp1).
  { unfold call_RenyiDP. by rewrite HR1. }
  rewrite <- Hcall in Hacct2.
  destruct (amplify_fields self m1 p2 flag h1 rdp2 Hscheme2 Hacct2)
    as (n2 & m2 & h2 & Hc2 & _ & _ & Hp2 & Hn2 & _ & Hbelow2 & Hs2).
  rewrite Hp1 in Hbelow2, Hs2. rewrite Hs1 in Hbelow2, Hs2.
  assert (n2 = 0%nat) as ->.
  { destruct n2 as [|n2]; [reflexivity|].
    destruct (Hbelow2 0%nat) as [v Hv]; [lia|].
    cbn [amplify_newname] in Hv.
    rewrite lookup_insert_ne in Hv; [congruence|].
    intros E. by apply (key_is_not_name self p2). }
  exists m1, h1, m2, h2. split; [done|]. split; [done|].
  split; [done|]. split; [congruence|].
  split; [by rewrite Hn2, Hn1|]. split; [done|].
  rewrite Hs2. cbn [amplify_newname]. apply insert_insert_eq.
Qed.

(** ** converter.py: the bias of the numerical conjugate *)

(** X20.  When the optimizer succeeds and the value it reports is the
    objective -y*x + f(y) at a point y0 of [0, 1], [conjugate] returns
    x*y0 - f(y0) - tol: a value at least tol below every upper bound of
    x*y - f(y) over [0, 1], hence below the convex conjugate.  The margin
    is taken off on the side of the optimizer's own error. *)
Theorem conjugate_is_biased_downwards (f : evaluator) (x y0 gy : R)
    (r : OptimizeResult) :
  minimize_scalar (fun y => let* v := f y in mret (- y * Fin x + v))
    (mk_args (Some Bounded) None (Some (0, 1)) None (Some conjugate_tol))
    = mret r ->
  success r = true ->
  (0 <= y0 <= 1)%R ->
  f (Fin y0) = mret (Fin gy) ->
  fun_ r = Fin (- y0 * x + gy)%R ->
  exists v,
    conjugate f conjugate_tol (Fin x) = mret (Some (Fin v))
    /\ v = (x * y0 - gy - 1 / 10 ^ 10)%R
    /\ forall S : R,
         (forall y g, (0 <= y <= 1)%R -> f (Fin y) = mret (Fin g) ->
                      (x * y - g <= S)%R) ->
         (v <= S - 1 / 10 ^ 10)%R.
Proof.
  intros Hopt Hsucc Hy0 Hf Hfun.
  exists (x * y0 - gy - 1 / 10 ^ 10)%R. split; [|split; [reflexivity|]].
  - unfold conjugate. rewrite Hopt, mbind_ret_l, Hsucc, Hfun.
    unfold conjugate_tol. cbn [Num.add Num.neg]. do 3 f_equal. lra.
  - intros S HS. specialize (HS y0 gy Hy0 Hf). lra.
Qed.

(** ** mechanism_zoo.py: SubSampleGaussian_phi under ComposeAFA *)

(** What the constructor sets, by mode.  [upperPhi] is set in no mode. *)
Lemma SubSampleGaussian_phi_fields sigma gamma coeff nm lb ub (h : store) :
  exists self h' base h0,
    SubSampleGaussian_phi sigma gamma coeff nm lb ub h = (Ok self, h')
    /\ Mechanism_init h = (Ok base, h0)
    /\ exactPhi self = false
    /\ upperPhi self = upperPhi base
    /\ phi_p_lower self
       = (if lb then
            Some (phi_subsample_gaussian_p
                    {[ "sigma" := sigma; "gamma" := gamma ]} phi_min)
          else if ub then None
          else Some (phi_subsample_gaussian_p
                       {[ "sigma" := sigma; "gamma" := gamma ]} no_keyword))
    /\ phi_p_upper self
       = (if lb then None
          else if ub then
            Some (phi_subsample_gaussian_p
                    {[ "sigma" := sigma; "gamma" := gamma ]} phi_max)
          else Some (phi_subsample_gaussian_p
                       {[ "sigma" := sigma; "gamma" := gamma ]} no_keyword))
    /\ phi_q_upper self
       = (if lb then None
          else if ub then
            Some (phi_subsample_gaussian_q
                    {[ "sigma" := sigma; "gamma" := gamma ]} phi_max)
          else None).
Proof.
  unfold SubSampleGaussian_phi, tbind, Mechanism_init, new_dict, tret, tlift,
    propagate_updates.
  destruct lb, ub; simpl; do 4 eexists;
    (split; [reflexivity|]); (split; [reflexivity|]); simpl; auto 10.
Qed.

(** The phi attributes of the two one-sided modes. *)
Lemma SubSampleGaussian_phi_carries sigma gamma coeff nm (h : store) :
  (exists L h', SubSampleGaussian_phi sigma gamma coeff nm true false h
                = (Ok L, h')
     /\ carries_only_lower L)
  /\ (exists U h', SubSampleGaussian_phi sigma gamma coeff nm false true h
                   = (Ok U, h')
        /\ carries_only_upper U).
Proof.
  unfold SubSampleGaussian_phi, tbind, Mechanism_init, new_dict, tret, tlift,
    propagate_updates, carries_only_lower, carries_only_upper.
  split; simpl; do 2 eexists; (split; [reflexivity|]); simpl;
    repeat split; eauto.
Qed.

(** C8 (the check reads the flags, not what is carried).  The precondition
    check of [ComposeAFA.compose] fails exactly when the flags of the list
    show both directions: an inexact mechanism whose [upperPhi] is false
    and an inexact one whose [upperPhi] is true.  The constructor of the
    mechanisms that carry one-sided phi-functions, [SubSampleGaussian_phi],
    never sets [upperPhi]: the instance built with [lower_bound=True]
    carries only lower-bound phi-functions, the one built with
    [upper_bound=True] carries only upper-bound phi-functions, and the list
    of the two is accepted: [compose] returns a mechanism. *)
Theorem ComposeAFA_mixing_check_reads_flags
    (sigma gamma coeff sigma' gamma' coeff' : num) (nm nm' : string)
    (cl : list num) (h : store) :
  (forall ml cl0 h0,
     (fst (ComposeAFA_compose ml cl0 h0) = Raise AssertionError
      <-> mixes_directions ml)
     /\ ((exists newmech, fst (ComposeAFA_compose ml cl0 h0) = Ok newmech)
         <-> ~ mixes_directions ml))
  /\ exists L h1 U h2 newmech h3,
       SubSampleGaussian_phi sigma gamma coeff nm true false h = (Ok L, h1)
       /\ SubSampleGaussian_phi sigma' gamma' coeff' nm' false true h1
          = (Ok U, h2)
       /\ carries_only_lower L
       /\ carries_only_upper U
       /\ ComposeAFA_compose [L; U] cl h2 = (Ok newmech, h3).
Proof.
  split.
  - intros ml cl0 h0. rewrite mixes_directions_bool.
    destruct (existsb only_lower ml && existsb only_upper ml) eqn:E.
    + rewrite (ComposeAFA_rejects ml cl0 h0 E). simpl.
      split; split; try done. intros [? ?]. discriminate.
    + destruct (ComposeAFA_accepts ml cl0 h0 E) as (newmech & h' & -> & _).
      simpl. split; split; try done. eauto.
  - destruct (SubSampleGaussian_phi_carries sigma gamma coeff nm h)
      as [(L & h1 & HL & HcL) _].
    destruct (SubSampleGaussian_phi_carries sigma' gamma' coeff' nm' h1)
      as [_ (U & h2 & HU & HcU)].
    destruct (SubSampleGaussian_phi_fields sigma gamma coeff nm true false h)
      as (L' & h1' & base & h0 & HL' & Hb & HeL & HuL & _).
    destruct (SubSampleGaussian_phi_fields sigma' gamma' coeff' nm' false true
                h1)
      as (U' & h2' & base' & h0' & HU' & Hb' & HeU & HuU & _).
    rewrite HL in HL'. injection HL' as <- <-.
    rewrite HU in HU'. injection HU' as <- <-.
    assert (Hbase : upperPhi base = false /\ upperPhi base' = false).
    { unfold Mechanism_init, tbind, new_dict, tret in Hb, Hb'.
      injection Hb as <- _. injection Hb' as <- _. done. }
    destruct Hbase as [Hbf Hbf']. rewrite Hbf in HuL. rewrite Hbf' in HuU.
    assert (Hacc : existsb only_lower [L; U] && existsb only_upper [L; U]
                   = false).
    { unfold only_lower, only_upper. simpl.
      by rewrite HeL, HuL, HeU, HuU. }
    destruct (ComposeAFA_accepts [L; U] cl h2 Hacc)
      as (newmech & h3 & Hc & _).
    exists L, h1, U, h2, newmech, h3. done.
Qed.

(** X21.  [SubSampleGaussian_phi] never sets [upperPhi]: an instance built
    with [lower_bound=True] and one built with [upper_bound=True] carry the
    same flags, those of an inexact mechanism with the constructor's
    [upperPhi].  [ComposeAFA.compose] therefore does not see their list as
    mixing directions and composes it, on the lower branch; the composed
    lower phi-function then fails on the upper instance, which has no
    [phi_p_lower], with AttributeError when it is evaluated. *)
Theorem SubSampleGaussian_phi_directions_alike
    (sigma gamma coeff sigma' gamma' coeff' : num) (nm nm' : string)
    (cl : list num) (h : store) :
  exists L h1 U h2 newmech h3,
    SubSampleGaussian_phi sigma gamma coeff nm true false h = (Ok L, h1)
    /\ SubSampleGaussian_phi sigma' gamma' coeff' nm' false true h1
       = (Ok U, h2)
    /\ exactPhi L = false /\ exactPhi U = false
    /\ upperPhi L = upperPhi U
    /\ phi_p_upper L = None /\ phi_p_lower U = None
    /\ ~ mixes_directions [L; U]
    /\ ComposeAFA_compose [L; U] cl h2 = (Ok newmech, h3)
    /\ cdf newmech
       = Some (fun x => cdf_approx (fun t => new_phi_p_lower [L; U] cl t) x,
               fun x => cdf_approx (fun t => new_phi_q_lower [L; U] cl t) x)
    /\ forall c1 c2 rest t v,
         cl = c1 :: c2 :: rest ->
         outcome (phi_subsample_gaussian_p
                    {[ "sigma" := sigma; "gamma" := gamma ]} phi_min t)
           = Ok v ->
         outcome (new_phi_p_lower [L; U] cl t) = Raise AttributeError.
Proof.
  destruct (SubSampleGaussian_phi_fields sigma gamma coeff nm true false h)
    as (L & h1 & base & h0 & HL & Hb & HeL & HuL & HplL & HpuL & _).
  destruct (SubSampleGaussian_phi_fields sigma' gamma' coeff' nm' false true h1)
    as (U & h2 & base' & h0' & HU & Hb' & HeU & HuU & HplU & HpuU & _).
  assert (Hbase : upperPhi base = false /\ upperPhi base' = false).
  { unfold Mechanism_init, tbind, new_dict, tret in Hb, Hb'.
    injection Hb as <- _. injection Hb' as <- _. done. }
  destruct Hbase as [Hbf Hbf']. rewrite Hbf in HuL. rewrite Hbf' in HuU.
  assert (Hlow : existsb only_lower [L; U] = true).
  { unfold only_lower. simpl. by rewrite HeL, HuL. }
  assert (Hup : existsb only_upper [L; U] = false).
  { unfold only_upper. simpl. by rewrite HeL, HuL, HeU, HuU. }
  assert (Hacc : existsb only_lower [L; U] && existsb only_upper [L; U]
                 = false).
  { by rewrite Hup, andb_false_r. }
  destruct (ComposeAFA_accepts [L; U] cl h2 Hacc)
    as (newmech & h3 & Hc & Hcdf & _).
  exists L, h1, U, h2, newmech, h3.
  split; [done|]. split; [done|]. split; [done|]. split; [done|].
  split; [congruence|]. split; [done|]. split; [done|].
  split. { rewrite mixes_directions_bool. by rewrite Hacc. }
  split; [done|]. split.
  - rewrite Hcdf. unfold AFA_cdf_pair.
    rewrite (some_inexact _ Hlow), Hlow. reflexivity.
  - intros c1 c2 rest t v -> Hv.
    apply (new_phi_missing phi_p_lower [L] U [] (c1 :: c2 :: rest) t).
    + simpl. lia.
    + done.
    + constructor; [|constructor]. rewrite HplL. eauto.
Qed.

End Autodp.

(** * Examples: the theorems at concrete inputs *)

(** Pure-DP epsilon 1: the round trip returns 1. *)
Lemma puredp_rdp_approxdp_roundtrip_example :
  exists rdp,
    puredp_to_rdp spec_log_diff_exp spec_log_sinh (Fin 1) = Ok rdp
    /\ rdp_to_approxdp (constant_minimizer gave_up) rdp Np.inf true 0%num
       = mret (Fin 1).
Proof.
  apply (puredp_rdp_approxdp_roundtrip (constant_minimizer gave_up)
           spec_log_diff_exp spec_log_sinh (Fin 1) Np.inf true).
  apply geb_zero_Fin. lra.
Defined.

(** Order 1/2: an exception with epsilon 0, a value with epsilon 1. *)
Lemma puredp_to_rdp_eps_zero_not_total_example :
  (0 < 1 / 2 < 1)%R /\ (0 < 1 <= 700)%R
  /\ (exists rdp,
        puredp_to_rdp spec_log_diff_exp spec_log_sinh 0%num = Ok rdp
        /\ rdp (Fin (1 / 2)) = mraise ZeroDivisionError)
  /\ (exists rdp v,
        puredp_to_rdp spec_log_diff_exp spec_log_sinh (Fin 1) = Ok rdp
        /\ rdp (Fin (1 / 2)) = mret (Fin v)).
Proof.
  assert (Ha : (0 < 1 / 2 < 1)%R) by lra.
  assert (He : (0 < 1 <= 700)%R) by lra.
  destruct (puredp_to_rdp_eps_zero_not_total spec_log_diff_exp spec_log_sinh)
    as [(rdp0 & H0 & _ & Hlow) [Hpos _]].
  destruct (Hpos 1%R He) as (rdp1 & H1 & _ & Hval).
  destruct (Hval (1 / 2)%R Ha) as [v Hv].
  split; [exact Ha|]. split; [exact He|]. split.
  - exists rdp0. split; [exact H0 | exact (Hlow _ Ha)].
  - exists rdp1, v. split; [exact H1 | exact Hv].
Defined.

(** An optimizer that gives up at delta = 1/2: the answer is infinity. *)
Lemma rdp_to_approxdp_zero_delta_and_failure_example :
  outcome (rdp_to_approxdp (constant_minimizer gave_up) gaussian5_rdp Np.inf
             true (Fin (1 / 2)))
  = Ok Np.inf.
Proof.
  apply (proj2 (rdp_to_approxdp_zero_delta_and_failure
                  (constant_minimizer gave_up) gaussian5_rdp Np.inf true)
               (Fin (1 / 2)) [] gave_up).
  - unfold Num.eqb, Num.zero. apply Reqb_false. lra.
  - reflexivity.
  - reflexivity.
Defined.

(** delta = 2 on the RDP curve of a Gaussian mechanism with sigma = 5: the
    error line is printed and the optimizer's value comes back; an fDP
    evaluator raises at fpr = 2. *)
Lemma rdp_to_approxdp_out_of_domain_example :
  rdp_to_approxdp (constant_minimizer found_half) gaussian5_rdp Np.inf true
    (Fin 2)
  = ([delta_error_message], Ok (Fin (1 / 2)))
  /\ forall alpha rho fdp,
       single_rdp_to_fdp (constant_minimizer found_half) spec_logsumexp_two
         alpha rho = Ok fdp ->
       fdp (Fin 2) = mraise AssertionError.
Proof.
  apply (rdp_to_approxdp_out_of_domain_proceeds (constant_minimizer found_half)
           spec_logsumexp_two gaussian5_rdp Np.inf true 2 [] found_half).
  - right. lra.
  - reflexivity.
Defined.

(** One pure-DP mechanism with epsilon 1 and coefficient 10. *)
Lemma compose_pure_dp_epsilon_example :
  (exists newmech h',
     Composition_compose (constant_minimizer gave_up) spec_log_diff_exp
       spec_log_sinh str_half no_fdp_route [pure_one] [Fin 10]
       true true false pure_one_store = (Ok newmech, h')
     /\ eps_pureDP newmech
        = Py.sum (map (fun mc => (snd mc * eps_pureDP (fst mc))%num)
                      (zip [pure_one] [Fin 10])))
  /\ Py.sum (map (fun mc => (snd mc * eps_pureDP (fst mc))%num)
                 (zip [pure_one] (map Fin [10%R])))
     = Fin (weighted_sum [10%R] [1%R])
  /\ compose_eps_pureDP [1%float] [10%float] = (10 * 1)%float.
Proof.
  destruct (compose_pure_dp_epsilon (constant_minimizer gave_up)
              spec_log_diff_exp spec_log_sinh str_half no_fdp_route)
    as (Hfield & Hexact & Hone & _).
  split; [|split].
  - apply Hfield. discriminate.
  - apply Hexact; reflexivity.
  - apply Hone. vm_compute. discriminate.
Defined.

(** Ten copies of a pure-DP mechanism with epsilon 0.1, each with
    coefficient 1: the sum computed on doubles is 0.9999999999999999, the
    product 10 * 0.1 is 1.0. *)
Lemma compose_ten_copies_not_exact :
  compose_eps_pureDP (replicate 10 one_tenth_double) (replicate 10 1%float)
  = 0x1.fffffffffffffp-1%float
  /\ (10 * one_tenth_double)%float = 1%float
  /\ compose_eps_pureDP (replicate 10 one_tenth_double) (replicate 10 1%float)
     <> (10 * one_tenth_double)%float.
Proof.
  split; [vm_compute; reflexivity|]. split; [vm_compute; reflexivity|].
  intros H.
  assert (E : PrimFloat.eqb
                (compose_eps_pureDP (replicate 10 one_tenth_double)
                   (replicate 10 1%float))
                (10 * one_tenth_double)%float = false)
    by (vm_compute; reflexivity).
  rewrite H in E. vm_compute in E. discriminate E.
Qed.

(** The same composition at the infinite order. *)
Lemma compose_rdp_weighted_sum_example :
  exists newmech h',
    Composition_compose (constant_minimizer gave_up) spec_log_diff_exp
      spec_log_sinh str_half no_fdp_route [pure_one] (map Fin [10%R])
      true true false pure_one_store = (Ok newmech, h')
    /\ call_RenyiDP newmech Np.inf = mret (Fin (weighted_sum [10%R] [1%R])).
Proof.
  apply (proj2 (proj2 (compose_rdp_weighted_sum (constant_minimizer gave_up)
                  spec_log_diff_exp spec_log_sinh str_half no_fdp_route))
               [pure_one] [10%R] [1%R] Np.inf true true false pure_one_store).
  - discriminate.
  - reflexivity.
  - constructor; [reflexivity | constructor].
Defined.

(** Lists of flagged mechanisms are rejected when the flags mix; the two
    one-sided subsampled Gaussians with sigma = 5 and gamma = 1/100 are
    composed. *)
Lemma ComposeAFA_mixing_check_reads_flags_example :
  fst (ComposeAFA_compose (constant_minimizer gave_up) spec_log_diff_exp
         spec_log_sinh str_half no_fdp_route re_cdf_approx
         [lower_only; upper_only] [1%num; 1%num] pure_one_store)
  = Raise AssertionError
  /\ exists L h1 U h2 newmech h3,
       SubSampleGaussian_phi (constant_minimizer gave_up) spec_log_diff_exp
         spec_log_sinh str_half no_fdp_route re_cdf_approx identity_phi_bank
         identity_phi_bank (Fin 5) (Fin (1 / 100)) 1%num
         "Subsample_Gaussian_phi" true false ∅ = (Ok L, h1)
       /\ SubSampleGaussian_phi (constant_minimizer gave_up) spec_log_diff_exp
            spec_log_sinh str_half no_fdp_route re_cdf_approx
            identity_phi_bank identity_phi_bank (Fin 5) (Fin (1 / 100)) 1%num
            "Subsample_Gaussian_phi" false true h1 = (Ok U, h2)
       /\ carries_only_lower L
       /\ carries_only_upper U
       /\ ComposeAFA_compose (constant_minimizer gave_up) spec_log_diff_exp
            spec_log_sinh str_half no_fdp_route re_cdf_approx
            [L; U] [1%num; 1%num] h2 = (Ok newmech, h3).
Proof.
  destruct (ComposeAFA_mixing_check_reads_flags (constant_minimizer gave_up)
              spec_log_diff_exp spec_log_sinh str_half no_fdp_route
              re_cdf_approx identity_phi_bank identity_phi_bank
              (Fin 5) (Fin (1 / 100)) 1%num (Fin 5) (Fin (1 / 100)) 1%num
              "Subsample_Gaussian_phi" "Subsample_Gaussian_phi"
              [1%num; 1%num] ∅)
    as [Hflags Hzoo].
  split; [|exact Hzoo].
  apply (proj1 (Hflags [lower_only; upper_only] [1%num; 1%num]
                  pure_one_store)).
  split.
  - exists lower_only. split; [left; reflexivity | split; reflexivity].
  - exists upper_only.
    split; [right; left; reflexivity | split; reflexivity].
Defined.


(** Poisson sampling of a mechanism whose approx-DP curve is constantly 1:
    with probability 0 the amplified curve is 0, with probability 1/2 it
    is log(1 + (e - 1) / 2) at delta = 1/4. *)
Lemma amplify_approxDP_closed_form_example :
  (exists newmech h',
     AmplificationBySampling_amplify (constant_minimizer gave_up)
       spec_log_diff_exp spec_log_sinh str_half no_fdp_route plain_acct
       (AmplificationBySampling_init true) approx_one 0%num false
       pure_one_store = (Ok newmech, h')
     /\ call_approxDP newmech (Fin (1 / 4)) = mret 0%num)
  /\ (exists newmech h',
        AmplificationBySampling_amplify (constant_minimizer gave_up)
          spec_log_diff_exp spec_log_sinh str_half no_fdp_route plain_acct
          (AmplificationBySampling_init true) approx_one (Fin (1 / 2)) false
          pure_one_store = (Ok newmech, h')
        /\ call_approxDP newmech (Fin (1 / 4))
           = mret (Fin (ln (1 + 1 / 2 * (exp 1 - 1))))).
Proof.
  split.
  - destruct (amplify_approxDP_closed_form (constant_minimizer gave_up)
                spec_log_diff_exp spec_log_sinh str_half no_fdp_route
                plain_acct (AmplificationBySampling_init true) approx_one
                0%num false pure_one_store (call_RenyiDP approx_one))
      as (newmech & h' & Hc & Hzero & _).
    + reflexivity.
    + reflexivity.
    + exists newmech, h'. split; [exact Hc|]. apply Hzero. reflexivity.
  - destruct (amplify_approxDP_closed_form (constant_minimizer gave_up)
                spec_log_diff_exp spec_log_sinh str_half no_fdp_route
                plain_acct (AmplificationBySampling_init true) approx_one
                (Fin (1 / 2)) false pure_one_store (call_RenyiDP approx_one))
      as (newmech & h' & Hc & _ & Hpos).
    + reflexivity.
    + reflexivity.
    + exists newmech, h'. split; [exact Hc|].
      destruct (Hpos (1 / 2)%R eq_refl ltac:(lra)) as [_ Hval].
      apply (Hval (1 / 4)%R 1%R); [lra | lra | reflexivity |].
      unfold Np.exp_max. lra.
Defined.

(** [PureDP_Mechanism(1.0)] is built and then amplified with probability
    1/2: its [params] were the one entry [eps] before the call and hold
    the key PoissonSample after it. *)
Lemma amplify_mutates_input_params_example :
  exists mech h1 newmech h2,
    PureDP_Mechanism (constant_minimizer gave_up) spec_log_diff_exp
      spec_log_sinh str_half no_fdp_route (Fin 1) "PureDP" ∅ = (Ok mech, h1)
    /\ AmplificationBySampling_amplify (constant_minimizer gave_up)
         spec_log_diff_exp spec_log_sinh str_half no_fdp_route plain_acct
         (AmplificationBySampling_init true) mech (Fin (1 / 2)) false h1
       = (Ok newmech, h2)
    /\ params newmech = params mech
    /\ contents (params mech) h1 = {[ "eps" := Fin 1 ]}
    /\ contents (params mech) h2
       = <[ "PoissonSample" := Fin (1 / 2) ]> {[ "eps" := Fin 1 ]}.
Proof.
  destruct (PureDP_Mechanism_params (constant_minimizer gave_up)
              spec_log_diff_exp spec_log_sinh str_half no_fdp_route
              1%R "PureDP" ∅ Rle_0_1)
    as (mech & h1 & Hm & Hr & _ & Hd).
  destruct (amplify_mutates_input_params (constant_minimizer gave_up)
              spec_log_diff_exp spec_log_sinh str_half no_fdp_route plain_acct
              (AmplificationBySampling_init true) mech (Fin (1 / 2)) false
              h1 (call_RenyiDP mech))
    as (n & newmech & h2 & Hc & Hp & _ & Hbelow & Hst & _).
  - rewrite Hr. reflexivity.
  - reflexivity.
  - exists mech, h1, newmech, h2.
    split; [exact Hm|]. split; [exact Hc|]. split; [exact Hp|].
    split; [exact Hd|].
    destruct n as [|n].
    + rewrite Hst, Hd. reflexivity.
    + destruct (Hbelow 0 (Nat.lt_0_succ n)) as [v Hv].
      rewrite Hd in Hv. vm_compute in Hv. discriminate Hv.
Defined.

(** ** More of converter.py *)

(** Pure DP with epsilon 1 at the false-positive rate 1/2. *)
Lemma puredp_to_fdp_range_example :
  puredp_to_fdp (Fin 1) (Fin (1 / 2)) = mret (Fin (pure_tradeoff 1 (1 / 2)))
  /\ (0 <= pure_tradeoff 1 (1 / 2) <= 1 - 1 / 2)%R.
Proof.
  destruct (puredp_to_fdp_range 1 (1 / 2)) as (Hv & Hr & _);
    [unfold Np.exp_max; lra | lra |].
  split; [exact Hv | exact Hr].
Defined.

(** The rates 1/4 and 1/2. *)
Lemma puredp_to_fdp_monotone_example :
  (pure_tradeoff 1 (1 / 2) <= pure_tradeoff 1 (1 / 4))%R.
Proof.
  apply (puredp_to_fdp_monotone 1 (1 / 4) (1 / 2)); lra.
Defined.

(** A negative epsilon is rejected; (1, 1/10) is accepted. *)
Lemma approxdp_to_fdp_behaviour_example :
  approxdp_to_fdp (Fin (-1)) (Fin 0) = Raise AssertionError
  /\ exists fdp,
       approxdp_to_fdp (Fin 1) (Fin (1 / 10)) = Ok fdp
       /\ fdp 0%num = mret (Fin (1 - 1 / 10)).
Proof.
  split.
  - apply (proj1 (approxdp_to_fdp_behaviour (-1) 0)). left. lra.
  - destruct (proj2 (approxdp_to_fdp_behaviour 1 (1 / 10)))
      as (fdp & Hf & H0 & _); [lra | lra |].
    exists fdp. split; [exact Hf | exact H0].
Defined.

(** Epsilon 1 at the rate 1/2. *)
Lemma approxdp_to_fdp_extends_puredp_to_fdp_example :
  exists fdp,
    approxdp_to_fdp (Fin 1) 0%num = Ok fdp
    /\ fdp (Fin (1 / 2)) = puredp_to_fdp (Fin 1) (Fin (1 / 2))
    /\ puredp_to_fdp (Fin 1) 0%num = mret (Fin 1).
Proof.
  destruct (proj1 approxdp_to_fdp_extends_puredp_to_fdp 1%R)
    as (fdp & Hf & Hin & _ & Hzero & _); [lra|].
  exists fdp. split; [exact Hf|]. split.
  - apply Hin. lra.
  - apply Hzero. unfold Np.exp_max. lra.
Defined.

(** The order 2. *)
Lemma fdp_end_points_example :
  exists fdp,
    single_rdp_to_fdp (constant_minimizer gave_up) spec_logsumexp_two
      (Fin 2) (Fin 1) = Ok fdp
    /\ fdp 0%num = mret 1%num /\ fdp 1%num = mret 0%num.
Proof.
  apply (fdp_end_points (constant_minimizer gave_up) spec_logsumexp_two
           (Fin 2) (Fin 1) Np.inf gaussian5_rdp gaussian5_rdp false).
  apply leb_Fin_true. lra.
Defined.

(** delta = 2. *)
Lemma inverse_converters_raise_type_error_example :
  cdf_to_approxdp (constant_minimizer gave_up) str_half gaussian5_rdp
    gaussian5_rdp (Fin 2) = mraise TypeError.
Proof.
  apply (proj1 (inverse_converters_raise_type_error
                  (constant_minimizer gave_up) str_half gaussian5_rdp
                  gaussian5_rdp gaussian5_rdp gaussian5_rdp 2)).
  right. lra.
Defined.

(** (1, 1/2)-DP asked at delta1 = 1/4. *)
Lemma approxdp_to_approxrdp_threshold_example :
  approxdp_to_approxrdp spec_log_diff_exp spec_log_sinh (Fin 1) (Fin (1 / 2))
    (Fin 2) (Fin (1 / 4)) = mret Np.inf.
Proof.
  apply (proj1 (approxdp_to_approxrdp_threshold spec_log_diff_exp
                  spec_log_sinh (Fin 1) (Fin (1 / 2)) (Fin 2) (Fin (1 / 4)))).
  apply leb_Fin_false. lra.
Defined.

(** The CDFs that are constantly 1 and 0, at x = 1. *)
Lemma cdf_trade_off_is_one_minus_delta_example :
  outcome (cdf_trade_off str_half (fun _ => mret (Fin 1))
             (fun _ => mret (Fin 0)) (Fin 1))
  = Ok (Fin (1 + 1 * 0)).
Proof.
  apply (cdf_trade_off_is_one_minus_delta str_half (fun _ => mret (Fin 1))
           (fun _ => mret (Fin 0)) 1 1 0);
    try reflexivity; try lra.
  rewrite ln_1. lra.
Defined.

(** The optimizer reports the objective at y0 = 1 for f = 0 and x = 0. *)
Lemma conjugate_is_biased_downwards_example :
  exists v,
    conjugate
      (constant_minimizer (mk_result true (Fin 1) (Fin (- 1 * 0 + 0))))
      (fun _ => mret (Fin 0)) conjugate_tol (Fin 0) = mret (Some (Fin v))
    /\ v = (0 * 1 - 0 - 1 / 10 ^ 10)%R.
Proof.
  destruct (conjugate_is_biased_downwards
              (constant_minimizer (mk_result true (Fin 1) (Fin (- 1 * 0 + 0))))
              (fun _ => mret (Fin 0)) 0 1 0
              (mk_result true (Fin 1) (Fin (- 1 * 0 + 0))))
    as (v & Hc & Hv & _).
  - reflexivity.
  - reflexivity.
  - lra.
  - reflexivity.
  - reflexivity.
  - exists v. split; [exact Hc | exact Hv].
Defined.

(** ** More of transformer_zoo.py *)

(** The composition of the pure-DP mechanism: its entry [eps] is found
    under the key PureDP:eps of a new dictionary. *)
Lemma compose_params_last_wins_example :
  exists newmech h',
    Composition_compose (constant_minimizer gave_up) spec_log_diff_exp
      spec_log_sinh str_half no_fdp_route ([] ++ [pure_one]) [Fin 10]
      true true false pure_one_store = (Ok newmech, h')
    /\ (params newmech ∉ dom pure_one_store)
    /\ contents (params newmech) h' !! (name pure_one +:+ ":" +:+ "eps")
       = Some (Fin 1).
Proof.
  apply (compose_params_last_wins (constant_minimizer gave_up)
           spec_log_diff_exp spec_log_sinh str_half no_fdp_route
           [] pure_one [Fin 10] true true false pure_one_store "eps" (Fin 1)).
  - discriminate.
  - constructor; [|constructor]. apply elem_of_dom. eexists. reflexivity.
  - reflexivity.
Defined.

(** Every entry of that dictionary comes from the pure-DP mechanism. *)
Lemma compose_params_origin_example :
  exists newmech h',
    Composition_compose (constant_minimizer gave_up) spec_log_diff_exp
      spec_log_sinh str_half no_fdp_route [pure_one] [Fin 10]
      true true false pure_one_store = (Ok newmech, h')
    /\ forall key v,
         contents (params newmech) h' !! key = Some v ->
         exists m k,
           In m [pure_one] /\ key = name m +:+ ":" +:+ k
           /\ contents (params m) pure_one_store !! k = Some v.
Proof.
  apply (compose_params_origin (constant_minimizer gave_up)
           spec_log_diff_exp spec_log_sinh str_half no_fdp_route
           [pure_one] [Fin 10] true true false pure_one_store).
  - discriminate.
  - constructor; [|constructor]. apply elem_of_dom. eexists. reflexivity.
Defined.

(** Two mechanisms and one coefficient: the guarantee is that of the
    first mechanism alone. *)
Lemma compose_surplus_mechanisms_example :
  exists newmech h1 short h2,
    Composition_compose (constant_minimizer gave_up) spec_log_diff_exp
      spec_log_sinh str_half no_fdp_route ([pure_one] ++ [pure_one])
      [Fin 10] true true false pure_one_store = (Ok newmech, h1)
    /\ Composition_compose (constant_minimizer gave_up) spec_log_diff_exp
         spec_log_sinh str_half no_fdp_route [pure_one]
         [Fin 10] true true false pure_one_store = (Ok short, h2)
    /\ eps_pureDP newmech = eps_pureDP short
    /\ RenyiDP newmech = RenyiDP short.
Proof.
  destruct (compose_surplus_mechanisms (constant_minimizer gave_up)
              spec_log_diff_exp spec_log_sinh str_half no_fdp_route
              [pure_one] [pure_one] [Fin 10] true true false pure_one_store)
    as (newmech & h1 & short & h2 & Hc & Hs & He & Hr & _).
  - discriminate.
  - reflexivity.
  - constructor; [|constructor; [|constructor]];
      apply elem_of_dom; eexists; reflexivity.
  - exists newmech, h1, short, h2.
    split; [exact Hc|]. split; [exact Hs|]. split; [exact He | exact Hr].
Defined.

(** The dictionary of the pure-DP mechanism after a composition. *)
Lemma compositions_leave_existing_params_example :
  snd (Composition_compose (constant_minimizer gave_up) spec_log_diff_exp
         spec_log_sinh str_half no_fdp_route [pure_one] [Fin 10]
         true true false pure_one_store) !! 1%positive
  = pure_one_store !! 1%positive.
Proof.
  apply (compositions_leave_existing_params (constant_minimizer gave_up)
           spec_log_diff_exp spec_log_sinh str_half no_fdp_route
           re_cdf_approx [pure_one] [Fin 10] true true false pure_one_store
           1%positive).
  apply elem_of_dom. eexists. reflexivity.
Defined.

(** One mechanism with [delta0] zero. *)
Lemma compose_delta0_is_max_example :
  exists newmech h' d,
    Composition_compose (constant_minimizer gave_up) spec_log_diff_exp
      spec_log_sinh str_half no_fdp_route [pure_one] [Fin 10]
      true true false pure_one_store = (Ok newmech, h')
    /\ delta0 newmech = Fin d
    /\ In d [0%R] /\ Forall (fun x => (x <= d)%R) [0%R].
Proof.
  apply (compose_delta0_is_max (constant_minimizer gave_up)
           spec_log_diff_exp spec_log_sinh str_half no_fdp_route
           [pure_one] [Fin 10] [0%R] true true false pure_one_store).
  - discriminate.
  - reflexivity.
  - reflexivity.
Defined.

(** One lower-bound mechanism: the CDF of each side from its own lower
    phi-function. *)
Lemma ComposeAFA_exact_and_lower_branches_example :
  exists newmech h',
    ComposeAFA_compose (constant_minimizer gave_up) spec_log_diff_exp
      spec_log_sinh str_half no_fdp_route re_cdf_approx
      [lower_only] [1%num] pure_one_store = (Ok newmech, h')
    /\ cdf newmech
       = Some (fun x => re_cdf_approx
                          (fun t => new_phi_p_lower [lower_only] [1%num] t) x,
               fun x => re_cdf_approx
                          (fun t => new_phi_q_lower [lower_only] [1%num] t) x).
Proof.
  destruct (ComposeAFA_exact_and_lower_branches (constant_minimizer gave_up)
              spec_log_diff_exp spec_log_sinh str_half no_fdp_route
              re_cdf_approx [lower_only] [1%num] pure_one_store)
    as (newmech & h' & Hc & _ & Hlow).
  - reflexivity.
  - exists newmech, h'. split; [exact Hc|].
    apply Hlow. reflexivity.
Defined.

(** The pure-DP mechanism has no phi-function and is flagged exact. *)
Lemma ComposeAFA_missing_phi_fails_late_example :
  exists newmech h' phi,
    ComposeAFA_compose (constant_minimizer gave_up) spec_log_diff_exp
      spec_log_sinh str_half no_fdp_route re_cdf_approx
      ([] ++ pure_one :: []) [1%num] pure_one_store = (Ok newmech, h')
    /\ exactPhi newmech = true
    /\ phi_p_upper newmech = Some phi
    /\ outcome (phi (Fin 1)) = Raise AttributeError.
Proof.
  apply (ComposeAFA_missing_phi_fails_late (constant_minimizer gave_up)
           spec_log_diff_exp spec_log_sinh str_half no_fdp_route
           re_cdf_approx [] [] pure_one [1%num] pure_one_store (Fin 1)).
  - reflexivity.
  - simpl. lia.
  - reflexivity.
  - constructor.
Defined.

(** Subsampling without replacement of a mechanism under the add/remove
    relation. *)
Lemma amplify_rejects_wrong_relation_example :
  exists h',
    AmplificationBySampling_amplify (constant_minimizer gave_up)
      spec_log_diff_exp spec_log_sinh str_half no_fdp_route plain_acct
      (AmplificationBySampling_init false) pure_one (Fin (1 / 2)) false
      pure_one_store = (Raise AssertionError, h')
    /\ contents (params pure_one) h' = contents (params pure_one) pure_one_store.
Proof.
  destruct (amplify_rejects_wrong_relation (constant_minimizer gave_up)
              spec_log_diff_exp spec_log_sinh str_half no_fdp_route plain_acct
              (AmplificationBySampling_init false) pure_one (Fin (1 / 2))
              false pure_one_store)
    as (h' & Hc & _ & Hd).
  - reflexivity.
  - exists h'. split; [exact Hc | exact Hd].
Defined.

(** Poisson sampling with probability 1/2 and then with probability 1/4. *)
Lemma amplify_twice_overwrites_example :
  exists m1 h1 m2 h2,
    AmplificationBySampling_amplify (constant_minimizer gave_up)
      spec_log_diff_exp spec_log_sinh str_half no_fdp_route plain_acct
      (AmplificationBySampling_init true) pure_one (Fin (1 / 2)) false
      pure_one_store = (Ok m1, h1)
    /\ AmplificationBySampling_amplify (constant_minimizer gave_up)
         spec_log_diff_exp spec_log_sinh str_half no_fdp_route plain_acct
         (AmplificationBySampling_init true) m1 (Fin (1 / 4)) false h1
       = (Ok m2, h2)
    /\ contents (params pure_one) h2
       = <[ "PoissonSample" := Fin (1 / 4) ]>
           (contents (params pure_one) pure_one_store).
Proof.
  destruct (amplify_twice_overwrites (constant_minimizer gave_up)
              spec_log_diff_exp spec_log_sinh str_half no_fdp_route plain_acct
              (AmplificationBySampling_init true) pure_one (Fin (1 / 2))
              (Fin (1 / 4)) false pure_one_store (call_RenyiDP pure_one)
              (call_RenyiDP pure_one))
    as (m1 & h1 & m2 & h2 & Hc1 & Hc2 & _ & _ & _ & _ & Hd).
  - reflexivity.
  - reflexivity.
  - reflexivity.
  - reflexivity.
  - reflexivity.
  - exists m1, h1, m2, h2. split; [exact Hc1|]. split; [exact Hc2 | exact Hd].
Defined.
